(** * IMU live chart: the [useImuData] hook of [src/App.jsx]

    A shallow embedding of the message handler, the two capped sample
    buffers and the connection status of the dashboard, followed by the
    properties of the specification that were checked against it.

    JavaScript numbers are IEEE 754 binary64 values, modelled by Rocq's
    primitive floats.  The engine's built-in functions that the handler
    calls ([JSON.parse], [String.prototype.trim], [TextDecoder], the
    clock, number/string conversion) are fields of a [Platform] record;
    every property is proved for an arbitrary platform. *)

From Stdlib Require Import String Ascii List Bool Arith ZArith Lia Floats Uint63.
From Stdlib Require Import DecimalString.
From Stdlib Require Import Strings.Byte.
Import ListNotations.
Local Open Scope string_scope.
Local Open Scope list_scope.
Local Open Scope nat_scope.

#[local] Set Warnings "-register-all,-inexact-float".

(** ** JavaScript values *)

(** The values [JSON.parse] can return.  An object is the list of its own
    properties, one entry per key, in insertion order. *)
Inductive json : Type :=
| JNull
| JBool (b : bool)
| JNum (n : float)
| JStr (s : string)
| JArr (elems : list json)
| JObj (props : list (string * json)).

(** A JavaScript value in the handler: [undefined] or a JSON value. *)
Definition value : Type := option json.
Abbreviation undefined := (@None json).
Abbreviation null := (Some JNull).

Inductive exn : Type := SyntaxError | TypeError.

(** Pure computations that may throw. *)
Definition result (A : Type) : Type := (exn + A)%type.

Definition rbind {A B} (r : result A) (k : A -> result B) : result B :=
  match r with
  | inl e => inl e
  | inr a => k a
  end.

(** ** Component state and the outside world *)

Inductive ConnectionStatus : Type :=
| connecting | connected | reconnecting | offline | closed | error.

Module Accel.
Record Sample : Type := { t : string; ax : value; ay : value; az : value }.
End Accel.

Module Gyro.
Record Sample : Type := { t : string; gx : value; gy : value; gz : value }.
End Gyro.

(** The six values a message decodes to. *)
Record Fields : Type := {
  ax : value; ay : value; az : value;
  gx : value; gy : value; gz : value
}.

Inductive Arg : Type :=
| AStr (s : string)
| AVal (v : value)
| AExn (e : exn).

Inductive Entry : Type :=
| console_log (args : list Arg)
| console_warn (args : list Arg)
| console_error (args : list Arg).

(** [status], [accel] and [gyro] are the three [useState] cells; the other
    fields are what the handlers touch outside the component: the console,
    the client's subscriptions and the number of clock readings so far. *)
Record World : Type := {
  status : ConnectionStatus;
  accel : list Accel.Sample;
  gyro : list Gyro.Sample;
  console : list Entry;
  subscriptions : list (string * nat);
  clock : nat
}.

(** A handler body: it runs on a world, returns or throws, and leaves a
    world behind either way (effects before a throw are kept). *)
Definition M (A : Type) : Type := World -> result A * World.

Definition ret {A} (a : A) : M A := fun w => (inr a, w).

Definition bind {A B} (m : M A) (k : A -> M B) : M B :=
  fun w =>
    match m w with
    | (inl e, w') => (inl e, w')
    | (inr a, w') => k a w'
    end.

Definition lift {A} (r : result A) : M A := fun w => (r, w).

Declare Scope js_scope.
Delimit Scope js_scope with js.
Notation "x <- m ;; k" := (bind m (fun x => k))
  (at level 61, m at next level, right associativity) : js_scope.
Notation "m ;;; k" := (bind m (fun _ => k))
  (at level 61, right associativity) : js_scope.
Notation "x <~ r ;; k" := (rbind r (fun x => k))
  (at level 61, r at next level, right associativity) : js_scope.
Local Open Scope js_scope.

Definition setStatus (s : ConnectionStatus) : M unit :=
  fun w =>
    (inr tt, {| status := s; accel := accel w; gyro := gyro w;
                console := console w; subscriptions := subscriptions w;
                clock := clock w |}).

(** [setAccel(updater)] and [setGyro(updater)]. *)
Definition setAccel (f : list Accel.Sample -> list Accel.Sample) : M unit :=
  fun w =>
    (inr tt, {| status := status w; accel := f (accel w); gyro := gyro w;
                console := console w; subscriptions := subscriptions w;
                clock := clock w |}).

Definition setGyro (f : list Gyro.Sample -> list Gyro.Sample) : M unit :=
  fun w =>
    (inr tt, {| status := status w; accel := accel w; gyro := f (gyro w);
                console := console w; subscriptions := subscriptions w;
                clock := clock w |}).

Definition emit (e : Entry) : M unit :=
  fun w =>
    (inr tt, {| status := status w; accel := accel w; gyro := gyro w;
                console := console w ++ [e]; subscriptions := subscriptions w;
                clock := clock w |}).

Definition client_subscribe (topic : string) (qos : nat) : M unit :=
  fun w =>
    (inr tt, {| status := status w; accel := accel w; gyro := gyro w;
                console := console w;
                subscriptions := subscriptions w ++ [(topic, qos)];
                clock := clock w |}).

(** ** The engine *)

Record Platform : Type := {
  (** [import.meta.env.VITE_MQTT_TOPIC] *)
  VITE_MQTT_TOPIC : option string;
  (** [new TextDecoder("utf-8").decode(bytes)] *)
  TextDecoder_decode : list byte -> string;
  (** [String.prototype.trim] *)
  trim : string -> string;
  (** [JSON.parse]: the parsed value, or the exception it throws *)
  JSON_parse : string -> result json;
  (** the abstract operations StringToNumber and Number::toString *)
  StringToNumber : string -> float;
  NumberToString : float -> string;
  (** [new Date().toLocaleTimeString()] at the n-th reading of the clock *)
  toLocaleTimeString : nat -> string
}.

Definition MAX_POINTS : nat := 300.

Fixpoint own_property (props : list (string * json)) (k : string) : value :=
  match props with
  | [] => undefined
  | (k', v) :: rest => if String.eqb k' k then Some v else own_property rest k
  end.

(** [o.k] for a key [k] that no built-in prototype defines (the twelve
    field names the handler reads are such keys, and none is an array index
    or [length]): reading a property of [null] throws, an object answers
    with its own property, every other value with [undefined]. *)
Definition Get (o : json) (k : string) : result value :=
  match o with
  | JNull => inl TypeError
  | JObj props => inr (own_property props k)
  | JBool _ | JNum _ | JStr _ | JArr _ => inr undefined
  end.

(** [v == null], true of [null] and [undefined] only. *)
Definition loose_eq_null (v : value) : bool :=
  match v with
  | None | Some JNull => true
  | Some _ => false
  end.

Definition loose_ne_null (v : value) : bool := negb (loose_eq_null v).

Section Handlers.

Context (P : Platform).

(** [TOPIC = import.meta.env.VITE_MQTT_TOPIC || "jaeoh/imu"] *)
Definition TOPIC : string :=
  match VITE_MQTT_TOPIC P with
  | Some EmptyString | None => "jaeoh/imu"
  | Some s => s
  end.

(** ToString of a parsed value.  A plain object whose own [toString] is
    a JSON value has no callable conversion method left and throws;
    [Array.prototype.join] writes [null] elements as the empty string. *)
Fixpoint ToString (j : json) : result string :=
  match j with
  | JNull => inr "null"
  | JBool true => inr "true"
  | JBool false => inr "false"
  | JNum n => inr (NumberToString P n)
  | JStr s => inr s
  | JArr elems =>
      (fix join (l : list json) : result string :=
         match l with
         | [] => inr EmptyString
         | x :: rest =>
             rbind (match x with JNull => inr EmptyString | _ => ToString x end)
               (fun s =>
                  match rest with
                  | [] => inr s
                  | _ :: _ => rbind (join rest) (fun r => inr (s ++ "," ++ r)%string)
                  end)
         end) elems
  | JObj props =>
      match own_property props "toString" with
      | Some _ => inl TypeError
      | None => inr "[object Object]"
      end
  end.

(** ToNumber; arrays and objects go through ToPrimitive, which for parsed
    values ends in the same string as ToString. *)
Definition ToNumber (v : value) : result float :=
  match v with
  | None => inr nan
  | Some JNull => inr 0%float
  | Some (JBool true) => inr 1%float
  | Some (JBool false) => inr 0%float
  | Some (JNum n) => inr n
  | Some (JStr s) => inr (StringToNumber P s)
  | Some (JArr _ as o) | Some (JObj _ as o) =>
      rbind (ToString o) (fun s => inr (StringToNumber P s))
  end.

(** [a / b] with a numeric literal on the right. *)
Definition js_div (a : value) (b : float) : result value :=
  rbind (ToNumber a) (fun n => inr (Some (JNum (n / b)%float))).

(** [lhs ?? rhs]: the right operand is evaluated only when the left one
    is [null] or [undefined]. *)
Definition nullish_coalesce (lhs : result value) (rhs : result value)
  : result value :=
  rbind lhs (fun v => if loose_eq_null v then rhs else inr v).

(** [v != null ? a : b], and [a / b] on an operand that may have thrown. *)
Definition ne_null (r : result value) : result bool :=
  rbind r (fun v => inr (loose_ne_null v)).

Definition cond (c : result bool) (a b : result value) : result value :=
  rbind c (fun x => if x then a else b).

Definition div (a : result value) (b : float) : result value :=
  rbind a (fun v => js_div v b).

Notation "a ?? b" := (nullish_coalesce a b)
  (at level 60, right associativity) : js_scope.

(** [new Date().toLocaleTimeString()]: one reading of the clock. *)
Definition Date_toLocaleTimeString : M string :=
  fun w =>
    (inr (toLocaleTimeString P (clock w)),
     {| status := status w; accel := accel w; gyro := gyro w;
        console := console w; subscriptions := subscriptions w;
        clock := S (clock w) |}).

(** ** The handlers of [useImuData] *)

(** The updater passed to [setAccel] and [setGyro]:
    [const next = [...prev, x]; if (next.length > MAX_POINTS) next.shift();
     return next]. *)
Definition push_capped {A : Type} (x : A) (prev : list A) : list A :=
  let next := prev ++ [x] in
  if (MAX_POINTS <? List.length next)%nat then tl next else next.

(** What the client hands to the [message] handler. *)
Inductive Payload : Type :=
| Uint8Array (bytes : list byte)
| Text (s : string).

(** [payload instanceof Uint8Array
      ? new TextDecoder("utf-8").decode(payload) : String(payload)] *)
Definition raw_of (payload : Payload) : string :=
  match payload with
  | Uint8Array bytes => TextDecoder_decode P bytes
  | Text s => s
  end.

(** The six [const] declarations after the timestamp, in source order. *)
Definition fields (msg : json) : result Fields :=
  ax <~ Get msg "ax" ??
        cond (ne_null (Get msg "ax_mg")) (div (Get msg "ax_mg") 1000) (inr null) ;;
  ay <~ Get msg "ay" ??
        cond (ne_null (Get msg "ay_mg")) (div (Get msg "ay_mg") 1000) (inr null) ;;
  az <~ Get msg "az" ??
        cond (ne_null (Get msg "az_mg")) (div (Get msg "az_mg") 1000) (inr null) ;;
  gx <~ Get msg "gx" ??
        cond (ne_null (Get msg "gx_cds")) (div (Get msg "gx_cds") 100) (inr null) ;;
  gy <~ Get msg "gy" ??
        cond (ne_null (Get msg "gy_cds")) (div (Get msg "gy_cds") 100) (inr null) ;;
  gz <~ Get msg "gz" ??
        cond (ne_null (Get msg "gz_cds")) (div (Get msg "gz_cds") 100) (inr null) ;;
  inr {| ax := ax; ay := ay; az := az; gx := gx; gy := gy; gz := gz |}.

Definition accel_sample (t : string) (f : Fields) : Accel.Sample :=
  {| Accel.t := t; Accel.ax := ax f; Accel.ay := ay f; Accel.az := az f |}.

Definition gyro_sample (t : string) (f : Fields) : Gyro.Sample :=
  {| Gyro.t := t; Gyro.gx := gx f; Gyro.gy := gy f; Gyro.gz := gz f |}.

Definition on_message (_topic : string) (payload : Payload) : M unit :=
  let raw := raw_of payload in
  emit (console_log [AStr "[RAW]"; AStr raw]) ;;;
  match JSON_parse P (trim P raw) with
  | inl e =>
      emit (console_warn [AStr "JSON parse failed:"; AExn e; AStr raw])
  | inr msg =>
      emit (console_log [AStr "[RX]"; AVal (Some msg)]) ;;;
      t <- Date_toLocaleTimeString ;;
      f <- lift (fields msg) ;;
      (if existsb loose_ne_null [ax f; ay f; az f]
       then setAccel (push_capped (accel_sample t f))
       else ret tt) ;;;
      (if existsb loose_ne_null [gx f; gy f; gz f]
       then setGyro (push_capped (gyro_sample t f))
       else ret tt)
  end.

Definition onConnect : M unit :=
  emit (console_log [AStr "[MQTT] connected"]) ;;;
  setStatus connected ;;;
  client_subscribe TOPIC 0.

(** The callback given to [client.subscribe]: [err] is the error when there
    is one, [granted] the granted topics when the client reports them. *)
Definition onSubscribed (err : option string) (granted : option (list string))
  : M unit :=
  match err with
  | Some e => emit (console_error [AStr "subscribe error:"; AStr e])
  | None =>
      emit (console_log
              [AStr "[MQTT] subscribed:";
               match granted with
               | Some topics => AStr (String.concat "," topics)
               | None => AVal undefined
               end])
  end.

(** What the messaging client can deliver to the component. *)
Inductive Event : Type :=
| Connect
| Reconnect
| Close
| Offline
| Error (e : string)
| Message (topic : string) (payload : Payload)
| Subscribed (err : option string) (granted : option (list string)).

Definition dispatch (ev : Event) : M unit :=
  match ev with
  | Connect => onConnect
  | Reconnect => setStatus reconnecting
  | Close => setStatus closed
  | Offline => setStatus offline
  | Error e => emit (console_error [AStr e]) ;;; setStatus error
  | Message topic payload => on_message topic payload
  | Subscribed err granted => onSubscribed err granted
  end.

(** The event loop: a handler that throws is abandoned where it threw and
    the next event is delivered to the world it left. *)
Definition deliver (w : World) (ev : Event) : World := snd (dispatch ev w).

Definition run (evs : list Event) (w : World) : World :=
  fold_left deliver evs w.

(** The status the component shows initially and after each event. *)
Fixpoint observed (evs : list Event) (w : World) : list ConnectionStatus :=
  status w ::
  match evs with
  | [] => []
  | ev :: rest => observed rest (deliver w ev)
  end.

End Handlers.

Notation "a ?? b" := (nullish_coalesce a b)
  (at level 60, right associativity) : js_scope.

(** The three [useState] initial values, in a world where nothing has been
    logged or subscribed yet. *)
Definition mount : World :=
  {| status := connecting; accel := []; gyro := []; console := [];
     subscriptions := []; clock := 0 |}.

(** The worlds the component can be in: the mounted one and whatever the
    delivery of events makes of it. *)
Inductive reachable (P : Platform) : World -> Prop :=
| reach_mount : reachable P mount
| reach_deliver w ev : reachable P w -> reachable P (deliver P w ev).

(** ** A concrete engine for running the handlers

    [engine] instantiates [Platform] so that the handlers can be evaluated
    on concrete payloads.  It agrees with an ECMAScript engine on ASCII
    text, on JSON texts without exponent notation and without [\u]
    escapes, and on [Number::toString] of integers; the theorems below do
    not depend on it, only their instances at concrete payloads do. *)

Module Engine.

Definition is_json_ws (c : ascii) : bool :=
  match nat_of_ascii c with
  | 9 | 10 | 13 | 32 => true
  | _ => false
  end.

Definition is_js_ws (c : ascii) : bool :=
  match nat_of_ascii c with
  | 9 | 10 | 11 | 12 | 13 | 32 => true
  | _ => false
  end.

Fixpoint skip (ws : ascii -> bool) (s : string) : string :=
  match s with
  | String c r => if ws c then skip ws r else s
  | EmptyString => s
  end.

Fixpoint rev_string (s acc : string) : string :=
  match s with
  | String c r => rev_string r (String c acc)
  | EmptyString => acc
  end.

Definition trim (s : string) : string :=
  rev_string (skip is_js_ws (rev_string (skip is_js_ws s) EmptyString))
    EmptyString.

Definition digit (c : ascii) : option Z :=
  let n := nat_of_ascii c in
  if ((48 <=? n) && (n <=? 57))%nat then Some (Z.of_nat (n - 48)) else None.

(** The leading decimal digits of [s]: their value continuing [acc], how
    many there are, and the rest of [s]. *)
Fixpoint digits (s : string) (acc : Z) (count : nat) : Z * nat * string :=
  match s with
  | String c r =>
      match digit c with
      | Some d => digits r (10 * acc + d)%Z (S count)
      | None => (acc, count, s)
      end
  | EmptyString => (acc, count, s)
  end.

Definition float_of_Z (z : Z) : float := PrimFloat.of_uint63 (Uint63.of_Z z).

(** A JSON number: [-]? int frac?, with no leading zero before a digit. *)
Definition parse_number (s : string) : option (float * string) :=
  let (neg, s1) :=
    match s with
    | String "-" r => (true, r)
    | _ => (false, s)
    end in
  let '(int, n, s2) := digits s1 0%Z 0 in
  let leading_zero :=
    match s1 with
    | String "0" _ => (1 <? n)%nat
    | _ => false
    end in
  if (n =? 0)%nat || leading_zero then None
  else
    let sign (x : float) := if neg then PrimFloat.opp x else x in
    match s2 with
    | String "." r =>
        let '(mant, k, s3) := digits r int 0 in
        if (k =? 0)%nat then None
        else Some (sign (float_of_Z mant / float_of_Z (10 ^ Z.of_nat k))%float, s3)
    | _ => Some (sign (float_of_Z int), s2)
    end.

Definition quote : ascii := ascii_of_nat 34.

(** The characters of a string literal after its opening quote. *)
Fixpoint parse_chars (s : string) : option (string * string) :=
  let continue (c : ascii) (r : string) :=
    match parse_chars r with
    | Some (str, rest) => Some (String c str, rest)
    | None => None
    end in
  match s with
  | EmptyString => None
  | String "\" (String e r) =>
      if Ascii.eqb e quote then continue quote r
      else
        match e with
        | "\"%char => continue "\"%char r
        | "/"%char => continue "/"%char r
        | "b"%char => continue (ascii_of_nat 8) r
        | "f"%char => continue (ascii_of_nat 12) r
        | "n"%char => continue (ascii_of_nat 10) r
        | "r"%char => continue (ascii_of_nat 13) r
        | "t"%char => continue (ascii_of_nat 9) r
        | _ => None
        end
  | String c r =>
      if Ascii.eqb c quote then Some (EmptyString, r)
      else if (nat_of_ascii c <? 32)%nat then None
      else continue c r
  end.

Fixpoint literal (lit s : string) : option string :=
  match lit, s with
  | EmptyString, _ => Some s
  | String a lit', String b s' => if Ascii.eqb a b then literal lit' s' else None
  | String _ _, EmptyString => None
  end.

(** A later member with the same key overwrites the earlier one in place. *)
Fixpoint set_property (k : string) (v : json) (props : list (string * json))
  : list (string * json) :=
  match props with
  | [] => [(k, v)]
  | (k', v') :: rest =>
      if String.eqb k' k then (k, v) :: rest
      else (k', v') :: set_property k v rest
  end.

Fixpoint parse_value (fuel : nat) (s : string) : option (json * string) :=
  match fuel with
  | O => None
  | S fuel' =>
      match skip is_json_ws s with
      | String "n" r => option_map (pair JNull) (literal "ull" r)
      | String "t" r => option_map (pair (JBool true)) (literal "rue" r)
      | String "f" r => option_map (pair (JBool false)) (literal "alse" r)
      | String "[" r =>
          match skip is_json_ws r with
          | String "]" rest => Some (JArr [], rest)
          | _ =>
              match parse_elements fuel' r with
              | Some (vs, rest) => Some (JArr vs, rest)
              | None => None
              end
          end
      | String "{" r =>
          match skip is_json_ws r with
          | String "}" rest => Some (JObj [], rest)
          | _ =>
              match parse_members fuel' r [] with
              | Some (props, rest) => Some (JObj props, rest)
              | None => None
              end
          end
      | String c r as s' =>
          if Ascii.eqb c quote then
            match parse_chars r with
            | Some (str, rest) => Some (JStr str, rest)
            | None => None
            end
          else
            match parse_number s' with
            | Some (n, rest) => Some (JNum n, rest)
            | None => None
            end
      | EmptyString => None
      end
  end

with parse_elements (fuel : nat) (s : string) : option (list json * string) :=
  match fuel with
  | O => None
  | S fuel' =>
      match parse_value fuel' s with
      | Some (v, r) =>
          match skip is_json_ws r with
          | String "," r' =>
              match parse_elements fuel' r' with
              | Some (vs, rest) => Some (v :: vs, rest)
              | None => None
              end
          | String "]" rest => Some ([v], rest)
          | _ => None
          end
      | None => None
      end
  end

with parse_members (fuel : nat) (s : string) (acc : list (string * json))
  : option (list (string * json) * string) :=
  match fuel with
  | O => None
  | S fuel' =>
      match skip is_json_ws s with
      | String c r =>
          if negb (Ascii.eqb c quote) then None else
          match parse_chars r with
          | Some (k, r1) =>
              match skip is_json_ws r1 with
              | String ":" r2 =>
                  match parse_value fuel' r2 with
                  | Some (v, r3) =>
                      let acc' := set_property k v acc in
                      match skip is_json_ws r3 with
                      | String "," r4 => parse_members fuel' r4 acc'
                      | String "}" rest => Some (acc', rest)
                      | _ => None
                      end
                  | None => None
                  end
              | _ => None
              end
          | None => None
          end
      | _ => None
      end
  end.

Definition JSON_parse (s : string) : result json :=
  match parse_value (S (String.length s)) s with
  | Some (v, rest) =>
      match skip is_json_ws rest with
      | EmptyString => inr v
      | String _ _ => inl SyntaxError
      end
  | None => inl SyntaxError
  end.

Definition StringToNumber (s : string) : float :=
  match trim s with
  | EmptyString => 0%float
  | s' =>
      match parse_number s' with
      | Some (n, EmptyString) => n
      | _ => nan
      end
  end.

(** Decimal digits of an integer-valued number; other numbers are outside
    what this engine prints. *)
Definition NumberToString (n : float) : string :=
  match Prim2SF n with
  | S754_zero _ => "0"
  | S754_finite neg m e =>
      let sign := if neg then "-" else EmptyString in
      let print (z : Z) := (sign ++ NilZero.string_of_uint (N.to_uint (Z.to_N z)))%string in
      match e with
      | Z0 | Zpos _ => print (Zpos m * 2 ^ e)%Z
      | Zneg p =>
          if (Zpos m mod 2 ^ Zpos p =? 0)%Z then print (Zpos m / 2 ^ Zpos p)%Z
          else "NaN"
      end
  | S754_infinity neg => if neg then "-Infinity" else "Infinity"
  | S754_nan => "NaN"
  end.

Definition time_of_reading (n : nat) : string :=
  NilZero.string_of_uint (Nat.to_uint n).

End Engine.

Definition engine : Platform :=
  {| VITE_MQTT_TOPIC := None;
     TextDecoder_decode := string_of_list_byte;
     trim := Engine.trim;
     JSON_parse := Engine.JSON_parse;
     StringToNumber := Engine.StringToNumber;
     NumberToString := Engine.NumberToString;
     toLocaleTimeString := Engine.time_of_reading |}.

(** ** Vocabulary of the specification *)

(** The expression on the right of each of the six declarations of
    [fields]: [msg.k ?? (msg.kraw != null ? msg.kraw / scale : null)]. *)
Definition field_expr (P : Platform) (msg : json) (k kraw : string)
  (scale : float) : result value :=
  (Get msg k ??
   cond (ne_null (Get msg kraw)) (div P (Get msg kraw) scale) (inr null))%js.

(** A field is present and non-null in a message object. *)
Definition present (props : list (string * json)) (k : string) (v : json)
  : Prop :=
  own_property props k = Some v /\ v <> JNull.

(** A field is absent from a message object, or null in it. *)
Definition missing (props : list (string * json)) (k : string) : Prop :=
  own_property props k = undefined \/ own_property props k = null.

(** The fallback rule for one logical field: the pre-scaled field when it
    is present and non-null, else the raw field divided by the scale when
    that one is present and non-null, else null. *)
Definition fallback_rule (P : Platform) (props : list (string * json))
  (k kraw : string) (scale : float) (out : value) : Prop :=
  (forall v, present props k v -> out = Some v) /\
  (missing props k ->
   forall r, present props kraw r ->
   exists n, ToNumber P (Some r) = inr n /\ out = Some (JNum (n / scale)%float)) /\
  (missing props k -> missing props kraw -> out = null).

(** Neither an array nor an object. *)
Definition scalar (j : json) : bool :=
  match j with
  | JArr _ | JObj _ => false
  | JNull | JBool _ | JNum _ | JStr _ => true
  end.

Definition raw_keys : list string :=
  ["ax_mg"; "ay_mg"; "az_mg"; "gx_cds"; "gy_cds"; "gz_cds"].

(** The raw fields of a message object hold no array and no object. *)
Definition scalar_raw_fields (props : list (string * json)) : Prop :=
  forall k v, In k raw_keys -> own_property props k = Some v -> scalar v = true.

(** One step of a sliding window of at most [MAX_POINTS] elements: nothing
    happens, or [x] is appended, the oldest element leaving when the window
    is full. *)
Definition window_step {A : Type} (prev next : list A) : Prop :=
  next = prev \/
  exists x,
    (List.length prev < MAX_POINTS /\ next = prev ++ [x]) \/
    (List.length prev = MAX_POINTS /\ next = tl prev ++ [x]).

(** The most recent [n] elements of a sequence, in order. *)
Definition most_recent {A : Type} (n : nat) (l : list A) : list A :=
  skipn (List.length l - n) l.

(** A text between double quotes. *)
Definition quoted (s : string) : string :=
  (String Engine.quote s ++ String Engine.quote EmptyString)%string.

(** The fields a payload decodes to, when its text parses and no field
    expression throws. *)
Definition decoded (P : Platform) (payload : Payload) : option Fields :=
  match JSON_parse P (trim P (raw_of P payload)) with
  | inr msg =>
      match fields P msg with
      | inr f => Some f
      | inl _ => None
      end
  | inl _ => None
  end.

(** The fields of a valid accelerometer message: a message that decodes
    with one of [ax], [ay], [az] not null. *)
Definition accel_fields (P : Platform) (ev : Event) : option Fields :=
  match ev with
  | Message _ payload =>
      match decoded P payload with
      | Some f => if existsb loose_ne_null [ax f; ay f; az f] then Some f else None
      | None => None
      end
  | _ => None
  end.

Definition accel_message (P : Platform) (ev : Event) : Prop :=
  accel_fields P ev <> None.

(** The samples decoded from a sequence of accelerometer messages, the
    first of them handled at the [n]-th reading of the clock. *)
Fixpoint accel_samples (P : Platform) (n : nat) (evs : list Event)
  : list Accel.Sample :=
  match evs with
  | [] => []
  | ev :: rest =>
      match accel_fields P ev with
      | Some f => [accel_sample (toLocaleTimeString P n) f]
      | None => []
      end ++ accel_samples P (S n) rest
  end.

(** The decoded field that goes by the name of a pre-scaled key. *)
Definition field_of (k : string) (f : Fields) : value :=
  if String.eqb k "ax" then ax f
  else if String.eqb k "ay" then ay f
  else if String.eqb k "az" then az f
  else if String.eqb k "gx" then gx f
  else if String.eqb k "gy" then gy f
  else if String.eqb k "gz" then gz f
  else undefined.

(** The payloads of the examples. *)
Definition payload_null : Payload := Text "null".

Definition payload_bad_json : Payload := Text "{bad json".

(** [{"ax_mg": 981, "gy_cds": 50}] *)
Definition payload_raw : Payload :=
  Text ("{" ++ quoted "ax_mg" ++ ": 981, " ++ quoted "gy_cds" ++ ": 50}")%string.

(** [{"ax": 1}] *)
Definition payload_accel : Payload :=
  Text ("{" ++ quoted "ax" ++ ": 1}")%string.

(** [{"gz": 2.5}] *)
Definition payload_gyro : Payload :=
  Text ("{" ++ quoted "gz" ++ ": 2.5}")%string.

(** [{"ax": "oops"}] *)
Definition payload_wrong_type : Payload :=
  Text ("{" ++ quoted "ax" ++ ": " ++ quoted "oops" ++ "}")%string.

(** [{"ax_mg": {"toString": 0}}] *)
Definition payload_raw_object : Payload :=
  Text ("{" ++ quoted "ax_mg" ++ ": {" ++ quoted "toString" ++ ": 0}}")%string.

Definition props_raw : list (string * json) :=
  [("ax_mg", JNum 981); ("gy_cds", JNum 50)].

(** ** The rest of the component *)

(** The cleanup of the effect: [try { client.end(true) } catch {}].  The
    client is the caller's; its [end] method is any handler body. *)
Definition try_catch {A : Type} (m : M A) (h : exn -> M A) : M A :=
  fun w =>
    match m w with
    | (inl e, w') => h e w'
    | (inr a, w') => (inr a, w')
    end.

Definition cleanup (client_end : bool -> M unit) : M unit :=
  try_catch (client_end true) (fun _ => ret tt).

(** The status strings the hook passes to [setStatus] and [useState]. *)
Definition status_name (s : ConnectionStatus) : string :=
  match s with
  | connecting => "connecting"
  | connected => "connected"
  | reconnecting => "reconnecting"
  | offline => "offline"
  | closed => "closed"
  | error => "error"
  end.

(** The object literal of [App] that maps a status to its badge colour. *)
Definition color_table : list (string * string) :=
  [("connecting", "#6b7280"); ("connected", "#16a34a");
   ("reconnecting", "#d97706"); ("offline", "#6b7280");
   ("closed", "#6b7280"); ("error", "#dc2626")].

Fixpoint table_lookup (table : list (string * string)) (k : string)
  : option string :=
  match table with
  | [] => None
  | (k', c) :: rest => if String.eqb k' k then Some c else table_lookup rest k
  end.

(** [color = table[status] || "#6b7280"]: the fallback is taken when the
    table has no entry, or an empty one. *)
Definition color (s : ConnectionStatus) : string :=
  match table_lookup color_table (status_name s) with
  | Some EmptyString | None => "#6b7280"
  | Some c => c
  end.

(** ** Vocabulary of the further properties *)

(** The status a lifecycle event sets; the other events set none. *)
Definition status_set_by (ev : Event) : list ConnectionStatus :=
  match ev with
  | Connect => [connected]
  | Reconnect => [reconnecting]
  | Close => [closed]
  | Offline => [offline]
  | Error _ => [error]
  | Message _ _ | Subscribed _ _ => []
  end.

Definition is_message (ev : Event) : bool :=
  match ev with
  | Message _ _ => true
  | _ => false
  end.

Definition is_connect (ev : Event) : bool :=
  match ev with
  | Connect => true
  | _ => false
  end.

(** The event is a message whose text parses. *)
Definition parsed (P : Platform) (ev : Event) : bool :=
  match ev with
  | Message _ payload =>
      match JSON_parse P (trim P (raw_of P payload)) with
      | inr _ => true
      | inl _ => false
      end
  | _ => false
  end.

(** The fields of a message that decodes with one of [gx], [gy], [gz] not
    null. *)
Definition gyro_fields (P : Platform) (ev : Event) : option Fields :=
  match ev with
  | Message _ payload =>
      match decoded P payload with
      | Some f => if existsb loose_ne_null [gx f; gy f; gz f] then Some f else None
      | None => None
      end
  | _ => None
  end.

(** The samples that a sequence of events of any kind sends to each
    buffer, the clock having been read [n] times before: a message that
    parses takes one reading, no other event takes any. *)
Fixpoint accel_stream (P : Platform) (n : nat) (evs : list Event)
  : list Accel.Sample :=
  match evs with
  | [] => []
  | ev :: rest =>
      match accel_fields P ev with
      | Some f => [accel_sample (toLocaleTimeString P n) f]
      | None => []
      end ++ accel_stream P (if parsed P ev then S n else n) rest
  end.

Fixpoint gyro_stream (P : Platform) (n : nat) (evs : list Event)
  : list Gyro.Sample :=
  match evs with
  | [] => []
  | ev :: rest =>
      match gyro_fields P ev with
      | Some f => [gyro_sample (toLocaleTimeString P n) f]
      | None => []
      end ++ gyro_stream P (if parsed P ev then S n else n) rest
  end.

(** A value a chart can draw or skip: a number or [null]. *)
Definition number_or_null (v : value) : Prop :=
  v = null \/ exists n, v = Some (JNum n).

(** A field of a message object is absent, [null] or a number. *)
Definition numeric_field (props : list (string * json)) (k : string) : Prop :=
  own_property props k = undefined \/ number_or_null (own_property props k).

Definition recognized_keys : list string :=
  ["ax"; "ay"; "az"; "gx"; "gy"; "gz";
   "ax_mg"; "ay_mg"; "az_mg"; "gx_cds"; "gy_cds"; "gz_cds"].

(** A stored sample has no [undefined] field and a field that is not
    [null]. *)
Definition accel_sample_ok (s : Accel.Sample) : Prop :=
  (Accel.ax s <> undefined /\ Accel.ay s <> undefined /\ Accel.az s <> undefined) /\
  (Accel.ax s <> null \/ Accel.ay s <> null \/ Accel.az s <> null).

Definition gyro_sample_ok (s : Gyro.Sample) : Prop :=
  (Gyro.gx s <> undefined /\ Gyro.gy s <> undefined /\ Gyro.gz s <> undefined) /\
  (Gyro.gx s <> null \/ Gyro.gy s <> null \/ Gyro.gz s <> null).

(** [[1, 2]] and [{"unit": "g", "ax": 1}] *)
Definition payload_array : Payload := Text "[1, 2]".

Definition payload_extra_field : Payload :=
  Text ("{" ++ quoted "unit" ++ ": " ++ quoted "g" ++ ", "
        ++ quoted "ax" ++ ": 1}")%string.

(** * Properties *)

(** ** Connection status *)

(** C8: the status is [connecting] on mount, and the events connect,
    reconnect, close in that order show exactly the statuses connecting,
    connected, reconnecting, closed, one per event. *)
Theorem status_sequence_connect_reconnect_close (P : Platform) :
  status mount = connecting /\
  observed P [Connect; Reconnect; Close] mount
  = [connecting; connected; reconnecting; closed].
Proof. split; reflexivity. Qed.

(** ** The capped buffer *)

Section Buffer.

Context {A : Type}.
Implicit Types (x : A) (prev xs l : list A).

Lemma MAX_POINTS_pos : 0 < MAX_POINTS.
Proof. unfold MAX_POINTS. lia. Qed.

Lemma push_capped_below x prev :
  List.length prev < MAX_POINTS -> push_capped x prev = prev ++ [x].
Proof.
  intros Hlen. unfold push_capped.
  destruct (Nat.ltb_spec MAX_POINTS (List.length (prev ++ [x]))) as [Hgt|_];
    [|reflexivity].
  rewrite length_app in Hgt. simpl in Hgt. lia.
Qed.

Lemma push_capped_over x prev :
  MAX_POINTS <= List.length prev -> push_capped x prev = tl prev ++ [x].
Proof.
  intros Hlen. unfold push_capped.
  destruct (Nat.ltb_spec MAX_POINTS (List.length (prev ++ [x]))) as [_|Hle].
  - destruct prev as [|y prev]; [|reflexivity].
    unfold MAX_POINTS in Hlen. simpl in Hlen. lia.
  - rewrite length_app in Hle. simpl in Hle. lia.
Qed.

Lemma push_capped_length x prev :
  List.length (push_capped x prev)
  = if List.length prev <? MAX_POINTS then S (List.length prev)
    else List.length prev.
Proof.
  destruct (Nat.ltb_spec (List.length prev) MAX_POINTS) as [Hlt|Hge].
  - rewrite push_capped_below by assumption.
    rewrite length_app. simpl. lia.
  - rewrite push_capped_over by assumption.
    rewrite length_app. simpl.
    destruct prev as [|y prev]; simpl.
    + unfold MAX_POINTS in Hge. simpl in Hge. lia.
    + lia.
Qed.

Lemma push_capped_bounded x prev :
  List.length prev <= MAX_POINTS ->
  List.length (push_capped x prev) <= MAX_POINTS.
Proof.
  intros Hlen. rewrite push_capped_length.
  destruct (Nat.ltb_spec (List.length prev) MAX_POINTS); lia.
Qed.

Lemma push_capped_last x prev d : last (push_capped x prev) d = x.
Proof.
  destruct (Nat.lt_ge_cases (List.length prev) MAX_POINTS) as [Hlt|Hge].
  - rewrite push_capped_below by assumption. apply last_last.
  - rewrite push_capped_over by assumption. apply last_last.
Qed.

Lemma push_capped_window_step x prev :
  List.length prev <= MAX_POINTS -> window_step prev (push_capped x prev).
Proof.
  intros Hlen. right. exists x.
  destruct (Nat.lt_ge_cases (List.length prev) MAX_POINTS) as [Hlt|Hge].
  - left. split; [assumption|]. now apply push_capped_below.
  - right. split; [lia|]. now apply push_capped_over.
Qed.

Lemma most_recent_length n l :
  List.length (most_recent n l) = Nat.min n (List.length l).
Proof. unfold most_recent. rewrite length_skipn. lia. Qed.

Lemma most_recent_short n l : List.length l <= n -> most_recent n l = l.
Proof.
  intros Hlen. unfold most_recent.
  replace (List.length l - n) with 0 by lia. reflexivity.
Qed.

(** A buffer that holds the most recent [MAX_POINTS] elements of a
    sequence holds, after a push, the most recent ones of the longer
    sequence. *)
Lemma push_capped_most_recent x l :
  push_capped x (most_recent MAX_POINTS l) = most_recent MAX_POINTS (l ++ [x]).
Proof.
  destruct (Nat.lt_ge_cases (List.length l) MAX_POINTS) as [Hlt|Hge].
  - rewrite (most_recent_short _ l) by lia.
    rewrite push_capped_below by assumption.
    symmetry. apply most_recent_short. rewrite length_app. simpl. lia.
  - rewrite push_capped_over by (rewrite most_recent_length; lia).
    unfold most_recent. rewrite length_app. simpl.
    replace (List.length l + 1 - MAX_POINTS)
      with (S (List.length l - MAX_POINTS)) by lia.
    rewrite skipn_app.
    replace (S (List.length l - MAX_POINTS) - List.length l) with 0
      by (pose proof MAX_POINTS_pos; lia).
    simpl (skipn 0 _). f_equal.
    change (tl (skipn (List.length l - MAX_POINTS) l))
      with (skipn 1 (skipn (List.length l - MAX_POINTS) l)).
    rewrite skipn_skipn. reflexivity.
Qed.

(** Pushing a sequence of elements one after the other leaves the most
    recent [MAX_POINTS] of the old contents followed by the new ones. *)
Lemma fold_push_capped xs : forall prev,
  List.length prev <= MAX_POINTS ->
  fold_left (fun buf x => push_capped x buf) xs prev
  = most_recent MAX_POINTS (prev ++ xs).
Proof.
  induction xs as [|x xs IH] using rev_ind; intros prev Hlen.
  - simpl. rewrite app_nil_r. symmetry. now apply most_recent_short.
  - rewrite fold_left_app. simpl. rewrite IH by assumption.
    rewrite app_assoc. apply push_capped_most_recent.
Qed.

End Buffer.

(** ** Decoding *)

Section Decoding.

Context (P : Platform).

Lemma fields_unfold msg :
  fields P msg =
  (ax <~ field_expr P msg "ax" "ax_mg" 1000 ;;
   ay <~ field_expr P msg "ay" "ay_mg" 1000 ;;
   az <~ field_expr P msg "az" "az_mg" 1000 ;;
   gx <~ field_expr P msg "gx" "gx_cds" 100 ;;
   gy <~ field_expr P msg "gy" "gy_cds" 100 ;;
   gz <~ field_expr P msg "gz" "gz_cds" 100 ;;
   inr {| ax := ax; ay := ay; az := az; gx := gx; gy := gy; gz := gz |})%js.
Proof. reflexivity. Qed.

Lemma fields_inv msg f :
  fields P msg = inr f ->
  field_expr P msg "ax" "ax_mg" 1000 = inr (ax f) /\
  field_expr P msg "ay" "ay_mg" 1000 = inr (ay f) /\
  field_expr P msg "az" "az_mg" 1000 = inr (az f) /\
  field_expr P msg "gx" "gx_cds" 100 = inr (gx f) /\
  field_expr P msg "gy" "gy_cds" 100 = inr (gy f) /\
  field_expr P msg "gz" "gz_cds" 100 = inr (gz f).
Proof.
  rewrite fields_unfold.
  destruct (field_expr P msg "ax" "ax_mg" 1000) as [?|vax]; [discriminate|].
  destruct (field_expr P msg "ay" "ay_mg" 1000) as [?|vay]; [discriminate|].
  destruct (field_expr P msg "az" "az_mg" 1000) as [?|vaz]; [discriminate|].
  destruct (field_expr P msg "gx" "gx_cds" 100) as [?|vgx]; [discriminate|].
  destruct (field_expr P msg "gy" "gy_cds" 100) as [?|vgy]; [discriminate|].
  destruct (field_expr P msg "gz" "gz_cds" 100) as [?|vgz]; [discriminate|].
  simpl. intros H. injection H as <-. repeat split.
Qed.

Lemma fields_intro msg vax vay vaz vgx vgy vgz :
  field_expr P msg "ax" "ax_mg" 1000 = inr vax ->
  field_expr P msg "ay" "ay_mg" 1000 = inr vay ->
  field_expr P msg "az" "az_mg" 1000 = inr vaz ->
  field_expr P msg "gx" "gx_cds" 100 = inr vgx ->
  field_expr P msg "gy" "gy_cds" 100 = inr vgy ->
  field_expr P msg "gz" "gz_cds" 100 = inr vgz ->
  fields P msg
  = inr {| ax := vax; ay := vay; az := vaz; gx := vgx; gy := vgy; gz := vgz |}.
Proof.
  intros Hax Hay Haz Hgx Hgy Hgz.
  rewrite fields_unfold, Hax, Hay, Haz, Hgx, Hgy, Hgz. reflexivity.
Qed.

(** Reading a field of [null] throws before anything is decoded. *)
Lemma fields_of_null : fields P JNull = inl TypeError.
Proof. reflexivity. Qed.

(** A parsed value other than [null] that is not an object has none of the
    twelve fields: everything decodes to [null]. *)
Lemma fields_of_non_object msg :
  msg <> JNull -> (forall props, msg <> JObj props) ->
  fields P msg
  = inr {| ax := null; ay := null; az := null;
           gx := null; gy := null; gz := null |}.
Proof.
  intros Hnull Hobj.
  destruct msg as [| | | | |props]; try reflexivity.
  - exfalso. now apply Hnull.
  - exfalso. now apply (Hobj props).
Qed.

Lemma scalar_ToNumber v : scalar v = true -> exists n, ToNumber P (Some v) = inr n.
Proof.
  destruct v as [|[]| | | |]; simpl; intros H; try discriminate; eauto.
Qed.

(** The expression of one field, on a message object. *)
Lemma field_expr_object props k kraw scale :
  field_expr P (JObj props) k kraw scale =
  if loose_eq_null (own_property props k)
  then if loose_eq_null (own_property props kraw)
       then inr null
       else js_div P (own_property props kraw) scale
  else inr (own_property props k).
Proof.
  unfold field_expr, Get, nullish_coalesce, cond, ne_null, div, loose_ne_null.
  simpl.
  destruct (loose_eq_null (own_property props k)); [|reflexivity].
  destruct (loose_eq_null (own_property props kraw)); reflexivity.
Qed.

Lemma present_not_nullish props k v :
  present props k v -> loose_eq_null (own_property props k) = false.
Proof. intros [-> Hv]. destruct v; try reflexivity. now contradict Hv. Qed.

Lemma missing_nullish props k :
  missing props k -> loose_eq_null (own_property props k) = true.
Proof. intros [-> | ->]; reflexivity. Qed.

Lemma present_or_missing props k :
  (exists v, present props k v) \/ missing props k.
Proof.
  unfold present, missing.
  destruct (own_property props k) as [[]|]; eauto;
    left; eexists; (split; [reflexivity|discriminate]).
Qed.

Lemma field_expr_rule props k kraw scale out :
  field_expr P (JObj props) k kraw scale = inr out ->
  fallback_rule P props k kraw scale out.
Proof.
  rewrite field_expr_object. intros H. repeat split.
  - intros v Hv. rewrite (present_not_nullish _ _ _ Hv) in H.
    destruct Hv as [Hv _]. congruence.
  - intros Hk r Hr.
    rewrite (missing_nullish _ _ Hk), (present_not_nullish _ _ _ Hr) in H.
    destruct Hr as [Hr _]. rewrite Hr in H. unfold js_div in H.
    destruct (ToNumber P (Some r)) as [e|n]; simpl in H; [discriminate|].
    exists n. split; congruence.
  - intros Hk Hr.
    rewrite (missing_nullish _ _ Hk), (missing_nullish _ _ Hr) in H.
    congruence.
Qed.

(** A decoded field is never [undefined]. *)
Lemma field_expr_defined msg k kraw scale out :
  field_expr P msg k kraw scale = inr out -> out <> undefined.
Proof.
  destruct msg as [| | | | |props]; try (cbv; congruence).
  intros H. apply field_expr_rule in H. destruct H as (H1 & H2 & H3).
  destruct (present_or_missing props k) as [[v Hv]|Hk].
  - rewrite (H1 v Hv). discriminate.
  - destruct (present_or_missing props kraw) as [[r Hr]|Hr].
    + destruct (H2 Hk r Hr) as (n & _ & ->). discriminate.
    + rewrite (H3 Hk Hr). discriminate.
Qed.

(** No conversion throws when the raw field holds no array or object. *)
Lemma field_expr_returns props k kraw scale :
  (forall v, own_property props kraw = Some v -> scalar v = true) ->
  exists out, field_expr P (JObj props) k kraw scale = inr out.
Proof.
  intros Hscalar. rewrite field_expr_object.
  destruct (loose_eq_null (own_property props k)); [|eauto].
  destruct (own_property props kraw) as [r|]; [|simpl; eauto].
  destruct (loose_eq_null (Some r)); [eauto|].
  destruct (scalar_ToNumber r (Hscalar r eq_refl)) as [n Hn].
  unfold js_div. rewrite Hn. simpl. eauto.
Qed.

End Decoding.

(** ** The message handler, case by case *)

Section Handling.

Context (P : Platform).

(** The text does not parse: two console entries, nothing else. *)
Lemma on_message_parse_failure topic payload w e :
  JSON_parse P (trim P (raw_of P payload)) = inl e ->
  on_message P topic payload w
  = (inr tt,
     {| status := status w; accel := accel w; gyro := gyro w;
        console :=
          (console w ++ [console_log [AStr "[RAW]"; AStr (raw_of P payload)]])
          ++ [console_warn [AStr "JSON parse failed:"; AExn e;
                            AStr (raw_of P payload)]];
        subscriptions := subscriptions w; clock := clock w |}).
Proof.
  intros Hparse. unfold on_message, bind, emit. simpl.
  rewrite Hparse. reflexivity.
Qed.

(** The text parses and a field expression throws: the handler is left
    after the clock was read and before any buffer is touched. *)
Lemma on_message_throws topic payload w msg e :
  JSON_parse P (trim P (raw_of P payload)) = inr msg ->
  fields P msg = inl e ->
  on_message P topic payload w
  = (inl e,
     {| status := status w; accel := accel w; gyro := gyro w;
        console :=
          (console w ++ [console_log [AStr "[RAW]"; AStr (raw_of P payload)]])
          ++ [console_log [AStr "[RX]"; AVal (Some msg)]];
        subscriptions := subscriptions w; clock := S (clock w) |}).
Proof.
  intros Hparse Hfields.
  unfold on_message, bind, emit, lift, Date_toLocaleTimeString. simpl.
  rewrite Hparse. simpl. rewrite Hfields. reflexivity.
Qed.

(** The text parses and decodes: each buffer is pushed to when one of its
    three fields is not null, with the one timestamp read for the message. *)
Lemma on_message_returns topic payload w msg f :
  JSON_parse P (trim P (raw_of P payload)) = inr msg ->
  fields P msg = inr f ->
  on_message P topic payload w
  = (inr tt,
     {| status := status w;
        accel :=
          if existsb loose_ne_null [ax f; ay f; az f]
          then push_capped
                 (accel_sample (toLocaleTimeString P (clock w)) f) (accel w)
          else accel w;
        gyro :=
          if existsb loose_ne_null [gx f; gy f; gz f]
          then push_capped
                 (gyro_sample (toLocaleTimeString P (clock w)) f) (gyro w)
          else gyro w;
        console :=
          (console w ++ [console_log [AStr "[RAW]"; AStr (raw_of P payload)]])
          ++ [console_log [AStr "[RX]"; AVal (Some msg)]];
        subscriptions := subscriptions w; clock := S (clock w) |}).
Proof.
  intros Hparse Hfields.
  unfold on_message, bind, emit, lift, Date_toLocaleTimeString. simpl.
  rewrite Hparse. simpl. rewrite Hfields.
  destruct (loose_ne_null (ax f) || (loose_ne_null (ay f)
            || (loose_ne_null (az f) || false)));
    destruct (loose_ne_null (gx f) || (loose_ne_null (gy f)
              || (loose_ne_null (gz f) || false)));
    reflexivity.
Qed.

(** The three cases cover every message. *)
Ltac message_cases topic payload w :=
  let e := fresh "e" in
  let msg := fresh "msg" in
  let f := fresh "f" in
  let Hparse := fresh "Hparse" in
  let Hfields := fresh "Hfields" in
  destruct (JSON_parse P (trim P (raw_of P payload))) as [e|msg] eqn:Hparse;
  [ rewrite (on_message_parse_failure topic payload w e Hparse)
  | destruct (fields P msg) as [e|f] eqn:Hfields;
    [ rewrite (on_message_throws topic payload w msg e Hparse Hfields)
    | rewrite (on_message_returns topic payload w msg f Hparse Hfields) ] ].

(** No handler touches the status except the lifecycle ones, and no
    handler touches a buffer except by a push. *)
Lemma on_message_status topic payload w :
  status (snd (on_message P topic payload w)) = status w.
Proof. message_cases topic payload w; reflexivity. Qed.

Lemma deliver_accel w ev :
  accel (deliver P w ev) = accel w \/
  exists x, accel (deliver P w ev) = push_capped x (accel w).
Proof.
  destruct ev as [| | | |e|topic payload|err granted];
    try (left; reflexivity).
  - unfold deliver, dispatch.
    message_cases topic payload w; cbn [snd accel]; auto.
    destruct (existsb _ _); eauto.
  - left. unfold deliver, dispatch, onSubscribed.
    destruct err; reflexivity.
Qed.

Lemma deliver_gyro w ev :
  gyro (deliver P w ev) = gyro w \/
  exists x, gyro (deliver P w ev) = push_capped x (gyro w).
Proof.
  destruct ev as [| | | |e|topic payload|err granted];
    try (left; reflexivity).
  - unfold deliver, dispatch.
    message_cases topic payload w; cbn [snd gyro]; auto.
    destruct (existsb _ _); eauto.
  - left. unfold deliver, dispatch, onSubscribed.
    destruct err; reflexivity.
Qed.

(** Both buffers stay within the cap in every reachable world. *)
Lemma reachable_bounded w :
  reachable P w ->
  List.length (accel w) <= MAX_POINTS /\ List.length (gyro w) <= MAX_POINTS.
Proof.
  induction 1 as [|w ev _ [IHa IHg]].
  - simpl. split; apply Nat.le_0_l.
  - split.
    + destruct (deliver_accel w ev) as [->|[x ->]];
        [assumption | now apply push_capped_bounded].
    + destruct (deliver_gyro w ev) as [->|[x ->]];
        [assumption | now apply push_capped_bounded].
Qed.

Lemma reachable_run evs : forall w,
  reachable P w -> reachable P (run P evs w).
Proof.
  induction evs as [|ev evs IH]; intros w Hw; simpl; [assumption|].
  apply IH. now constructor.
Qed.

End Handling.

(** ** Decoding and routing *)

Lemma fields_rules (P : Platform) props f :
  fields P (JObj props) = inr f ->
  fallback_rule P props "ax" "ax_mg" 1000 (ax f) /\
  fallback_rule P props "ay" "ay_mg" 1000 (ay f) /\
  fallback_rule P props "az" "az_mg" 1000 (az f) /\
  fallback_rule P props "gx" "gx_cds" 100 (gx f) /\
  fallback_rule P props "gy" "gy_cds" 100 (gy f) /\
  fallback_rule P props "gz" "gz_cds" 100 (gz f).
Proof.
  intros Hf.
  destruct (fields_inv P _ _ Hf) as (Hax & Hay & Haz & Hgx & Hgy & Hgz).
  repeat (split; [now apply field_expr_rule|]). now apply field_expr_rule.
Qed.

(** C1: on a message object, each of the six decoded fields follows the
    fallback rule (the pre-scaled field when present and non-null, else the
    raw field divided by 1000 for the accelerometer and by 100 for the
    gyroscope when present and non-null, else null); and decoding returns
    whenever no raw field holds an array or an object. *)
Theorem fields_follow_fallback_rule (P : Platform) (props : list (string * json)) :
  (scalar_raw_fields props -> exists f, fields P (JObj props) = inr f) /\
  (forall f, fields P (JObj props) = inr f ->
     fallback_rule P props "ax" "ax_mg" 1000 (ax f) /\
     fallback_rule P props "ay" "ay_mg" 1000 (ay f) /\
     fallback_rule P props "az" "az_mg" 1000 (az f) /\
     fallback_rule P props "gx" "gx_cds" 100 (gx f) /\
     fallback_rule P props "gy" "gy_cds" 100 (gy f) /\
     fallback_rule P props "gz" "gz_cds" 100 (gz f)).
Proof.
  split.
  - intros Hscalar.
    assert (Hraw : forall k kraw scale, In kraw raw_keys ->
              exists out, field_expr P (JObj props) k kraw scale = inr out).
    { intros k kraw scale Hin. apply field_expr_returns.
      intros v Hv. now apply (Hscalar kraw v). }
    destruct (Hraw "ax" "ax_mg" 1000%float) as [vax Hax]; [simpl; tauto|].
    destruct (Hraw "ay" "ay_mg" 1000%float) as [vay Hay]; [simpl; tauto|].
    destruct (Hraw "az" "az_mg" 1000%float) as [vaz Haz]; [simpl; tauto|].
    destruct (Hraw "gx" "gx_cds" 100%float) as [vgx Hgx]; [simpl; tauto|].
    destruct (Hraw "gy" "gy_cds" 100%float) as [vgy Hgy]; [simpl; tauto|].
    destruct (Hraw "gz" "gz_cds" 100%float) as [vgz Hgz]; [simpl; tauto|].
    eexists. apply fields_intro; eassumption.
  - intros f Hf.
    destruct (fields_inv P _ _ Hf) as (Hax & Hay & Haz & Hgx & Hgy & Hgz).
    repeat (split; [now apply field_expr_rule|]). now apply field_expr_rule.
Qed.

Lemma props_raw_scalar : scalar_raw_fields props_raw.
Proof.
  intros k v _. unfold props_raw. cbn [own_property].
  destruct (String.eqb "ax_mg" k); [intros H; injection H as <-; reflexivity|].
  destruct (String.eqb "gy_cds" k); [intros H; injection H as <-; reflexivity|].
  discriminate.
Qed.

Lemma fields_follow_fallback_rule_witness :
  scalar_raw_fields props_raw /\
  exists f, fields engine (JObj props_raw) = inr f /\
            fallback_rule engine props_raw "ax" "ax_mg" 1000 (ax f) /\
            fallback_rule engine props_raw "gy" "gy_cds" 100 (gy f).
Proof.
  split; [exact props_raw_scalar|].
  destruct (fields_follow_fallback_rule engine props_raw) as [Hret Hrule].
  destruct (Hret props_raw_scalar) as [f Hf].
  exists f. split; [exact Hf|].
  destruct (Hrule f Hf) as (Hax & _ & _ & _ & Hgy & _).
  split; assumption.
Defined.

(** The example of the specification: [{"ax_mg": 981, "gy_cds": 50}]
    decodes to [ax = 0.981], [gy = 0.5] and null elsewhere. *)
Example decode_raw_example :
  decoded engine payload_raw
  = Some {| ax := Some (JNum 0.981); ay := null; az := null;
            gx := null; gy := Some (JNum 0.5); gz := null |}.
Proof. vm_compute. reflexivity. Qed.

Lemma decoded_inv (P : Platform) payload f :
  decoded P payload = Some f ->
  exists msg, JSON_parse P (trim P (raw_of P payload)) = inr msg /\
              fields P msg = inr f.
Proof.
  unfold decoded.
  destruct (JSON_parse P (trim P (raw_of P payload))) as [?|msg];
    [discriminate|].
  destruct (fields P msg) as [?|f'] eqn:Hf; [discriminate|].
  intros H. injection H as <-. eauto.
Qed.

(** What the delivery of a message that decodes does to the world. *)
Lemma deliver_decoded (P : Platform) w topic payload f :
  decoded P payload = Some f ->
  deliver P w (Message topic payload)
  = {| status := status w;
       accel :=
         if existsb loose_ne_null [ax f; ay f; az f]
         then push_capped
                (accel_sample (toLocaleTimeString P (clock w)) f) (accel w)
         else accel w;
       gyro :=
         if existsb loose_ne_null [gx f; gy f; gz f]
         then push_capped
                (gyro_sample (toLocaleTimeString P (clock w)) f) (gyro w)
         else gyro w;
       console :=
         (console w ++ [console_log [AStr "[RAW]"; AStr (raw_of P payload)]])
         ++ [console_log
               [AStr "[RX]";
                AVal (match JSON_parse P (trim P (raw_of P payload)) with
                      | inr msg => Some msg
                      | inl _ => undefined
                      end)]];
       subscriptions := subscriptions w; clock := S (clock w) |}.
Proof.
  intros Hdec. destruct (decoded_inv P payload f Hdec) as (msg & Hparse & Hf).
  unfold deliver, dispatch.
  rewrite (on_message_returns P topic payload w msg f Hparse Hf), Hparse.
  reflexivity.
Qed.


Lemma fields_defined (P : Platform) msg f :
  fields P msg = inr f ->
  (ax f <> undefined /\ ay f <> undefined /\ az f <> undefined) /\
  (gx f <> undefined /\ gy f <> undefined /\ gz f <> undefined).
Proof.
  intros Hf.
  destruct (fields_inv P _ _ Hf) as (Hax & Hay & Haz & Hgx & Hgy & Hgz).
  repeat split; eapply field_expr_defined; eassumption.
Qed.

(** The two routing tests, in the form the handler evaluates them. *)
Lemma routing_non_null (P : Platform) w topic payload f :
  decoded P payload = Some f ->
  let w' := deliver P w (Message topic payload) in
  let t := toLocaleTimeString P (clock w) in
  (existsb loose_ne_null [ax f; ay f; az f] = true ->
   accel w' = push_capped (accel_sample t f) (accel w)) /\
  (existsb loose_ne_null [gx f; gy f; gz f] = true ->
   gyro w' = push_capped (gyro_sample t f) (gyro w)).
Proof.
  intros Hdec w' t. subst w' t.
  rewrite (deliver_decoded P w topic payload f Hdec). cbn [accel gyro].
  split; intros ->; reflexivity.
Qed.



(** One message may update one buffer, both, or neither. *)
Example one_both_or_neither :
  let pushed payload :=
    let w := deliver engine mount (Message "jaeoh/imu" payload) in
    (List.length (accel w), List.length (gyro w)) in
  pushed payload_accel = (1, 0) /\ pushed payload_gyro = (0, 1) /\
  pushed payload_raw = (1, 1) /\ pushed (Text "{}") = (0, 0).
Proof. vm_compute. repeat split. Qed.

(** ** Frame and timestamp *)

(** C9: a message never changes the connection status; a message that
    decodes to accelerometer fields only is pushed to the accel buffer and
    leaves the gyro buffer as it was, and the other way round. *)
Theorem message_frame (P : Platform) (w : World) (topic : string)
  (payload : Payload) :
  let w' := deliver P w (Message topic payload) in
  let t := toLocaleTimeString P (clock w) in
  status w' = status w /\
  (forall f, decoded P payload = Some f ->
     existsb loose_ne_null [ax f; ay f; az f] = true ->
     existsb loose_ne_null [gx f; gy f; gz f] = false ->
     accel w' = push_capped (accel_sample t f) (accel w) /\ gyro w' = gyro w) /\
  (forall f, decoded P payload = Some f ->
     existsb loose_ne_null [ax f; ay f; az f] = false ->
     existsb loose_ne_null [gx f; gy f; gz f] = true ->
     gyro w' = push_capped (gyro_sample t f) (gyro w) /\ accel w' = accel w).
Proof.
  intros w' t. subst w' t. split; [apply on_message_status|].
  split; intros f Hdec Ha Hg;
    rewrite (deliver_decoded P w topic payload f Hdec); cbn [accel gyro];
    rewrite Ha, Hg; split; reflexivity.
Qed.

Lemma message_frame_witness :
  exists f,
    decoded engine payload_accel = Some f /\
    existsb loose_ne_null [ax f; ay f; az f] = true /\
    existsb loose_ne_null [gx f; gy f; gz f] = false /\
    gyro (deliver engine mount (Message "jaeoh/imu" payload_accel)) = gyro mount.
Proof.
  exists {| ax := Some (JNum 1); ay := null; az := null;
            gx := null; gy := null; gz := null |}.
  split; [reflexivity|]. split; [reflexivity|]. split; [reflexivity|].
  destruct (message_frame engine mount "jaeoh/imu" payload_accel)
    as (_ & Hacc & _).
  apply (Hacc {| ax := Some (JNum 1); ay := null; az := null;
                 gx := null; gy := null; gz := null |});
    reflexivity.
Defined.

(** C10: when a message is pushed to both buffers, the two samples carry
    the same timestamp, the one reading of the clock that the handler makes
    for the message. *)
Theorem same_timestamp_in_both_buffers (P : Platform) (w : World)
  (topic : string) (payload : Payload) (f : Fields)
  (da : Accel.Sample) (dg : Gyro.Sample) :
  decoded P payload = Some f ->
  existsb loose_ne_null [ax f; ay f; az f] = true ->
  existsb loose_ne_null [gx f; gy f; gz f] = true ->
  let w' := deliver P w (Message topic payload) in
  Accel.t (last (accel w') da) = Gyro.t (last (gyro w') dg) /\
  Accel.t (last (accel w') da) = toLocaleTimeString P (clock w) /\
  clock w' = S (clock w).
Proof.
  intros Hdec Ha Hg w'. subst w'.
  rewrite (deliver_decoded P w topic payload f Hdec). cbn [accel gyro clock].
  rewrite Ha, Hg, !push_capped_last. repeat split.
Qed.

Lemma same_timestamp_in_both_buffers_witness :
  exists f,
    decoded engine payload_raw = Some f /\
    existsb loose_ne_null [ax f; ay f; az f] = true /\
    existsb loose_ne_null [gx f; gy f; gz f] = true /\
    let w' := deliver engine mount (Message "jaeoh/imu" payload_raw) in
    forall da dg, Accel.t (last (accel w') da) = Gyro.t (last (gyro w') dg).
Proof.
  eexists. split; [exact decode_raw_example|].
  split; [reflexivity|]. split; [reflexivity|].
  intros w' da dg.
  apply (same_timestamp_in_both_buffers engine mount "jaeoh/imu" payload_raw
           _ da dg decode_raw_example); reflexivity.
Defined.

(** ** The sliding windows *)

Lemma accel_fields_inv (P : Platform) ev f :
  accel_fields P ev = Some f ->
  exists topic payload,
    ev = Message topic payload /\ decoded P payload = Some f /\
    existsb loose_ne_null [ax f; ay f; az f] = true.
Proof.
  destruct ev as [| | | |e|topic payload|err granted]; try discriminate.
  cbn [accel_fields].
  destruct (decoded P payload) as [f'|] eqn:Hdec; [|discriminate].
  destruct (existsb loose_ne_null [ax f'; ay f'; az f']) eqn:Hsome;
    [|discriminate].
  intros H. injection H as <-. exists topic, payload. auto.
Qed.

Lemma most_recent_app {A : Type} n (old new : list A) :
  n <= List.length new -> most_recent n (old ++ new) = most_recent n new.
Proof.
  intros Hlen. unfold most_recent. rewrite length_app, skipn_app.
  rewrite skipn_all2 by lia. simpl. f_equal. lia.
Qed.

(** A run of accelerometer messages pushes their samples one by one, each
    stamped with the next reading of the clock. *)
Lemma run_accel_messages (P : Platform) evs : forall w,
  Forall (accel_message P) evs ->
  accel (run P evs w)
  = fold_left (fun buf x => push_capped x buf)
      (accel_samples P (clock w) evs) (accel w).
Proof.
  induction evs as [|ev evs IH]; intros w Hall; [reflexivity|].
  inversion Hall as [|? ? Hev Hrest]; subst.
  unfold accel_message in Hev.
  destruct (accel_fields P ev) as [f|] eqn:Hf; [|now contradict Hev].
  destruct (accel_fields_inv P ev f Hf) as (topic & payload & -> & Hdec & Hsome).
  cbn [run fold_left accel_samples]. rewrite Hf.
  change (fold_left (deliver P) evs (deliver P w (Message topic payload)))
    with (run P evs (deliver P w (Message topic payload))).
  rewrite IH by assumption.
  rewrite (deliver_decoded P w topic payload f Hdec). cbn [accel clock].
  rewrite Hsome. reflexivity.
Qed.

Lemma accel_samples_length (P : Platform) evs : forall n,
  Forall (accel_message P) evs ->
  List.length (accel_samples P n evs) = List.length evs.
Proof.
  induction evs as [|ev evs IH]; intros n Hall; [reflexivity|].
  inversion Hall as [|? ? Hev Hrest]; subst.
  unfold accel_message in Hev. cbn [accel_samples].
  destruct (accel_fields P ev); [|now contradict Hev].
  rewrite length_app, IH by assumption. reflexivity.
Qed.

(** C5: after more than [MAX_POINTS] valid accelerometer messages the accel
    buffer holds exactly [MAX_POINTS] samples, those decoded from the most
    recent [MAX_POINTS] messages, in arrival order. *)
Theorem accel_buffer_keeps_most_recent (P : Platform) (w : World)
  (evs : list Event) :
  reachable P w ->
  Forall (accel_message P) evs ->
  MAX_POINTS < List.length evs ->
  List.length (accel (run P evs w)) = MAX_POINTS /\
  accel (run P evs w)
  = most_recent MAX_POINTS (accel_samples P (clock w) evs).
Proof.
  intros Hw Hall Hlen.
  destruct (reachable_bounded P w Hw) as [Ha _].
  assert (Hrun : accel (run P evs w)
                 = most_recent MAX_POINTS (accel_samples P (clock w) evs)).
  { rewrite run_accel_messages, fold_push_capped by assumption.
    apply most_recent_app. rewrite accel_samples_length by assumption. lia. }
  split; [|exact Hrun].
  rewrite Hrun, most_recent_length, accel_samples_length by assumption. lia.
Qed.

Lemma accel_buffer_keeps_most_recent_witness :
  let evs := repeat (Message "jaeoh/imu" payload_accel) 301 in
  reachable engine mount /\
  Forall (accel_message engine) evs /\
  MAX_POINTS < List.length evs /\
  List.length (accel (run engine evs mount)) = MAX_POINTS.
Proof.
  intros evs.
  assert (Hall : Forall (accel_message engine) evs).
  { apply Forall_forall. intros ev Hin. apply repeat_spec in Hin. subst ev.
    unfold accel_message. vm_compute. discriminate. }
  assert (Hlen : MAX_POINTS < List.length evs).
  { unfold evs. rewrite repeat_length. unfold MAX_POINTS. lia. }
  split; [constructor|]. split; [exact Hall|]. split; [exact Hlen|].
  apply (accel_buffer_keeps_most_recent engine mount evs (reach_mount engine)
           Hall Hlen).
Defined.

(** ** Accelerometer messages *)

Lemma fallback_rule_non_null (P : Platform) props k kraw scale out :
  fallback_rule P props k kraw scale out ->
  (exists v, present props k v) \/ (exists r, present props kraw r) ->
  loose_ne_null out = true.
Proof.
  intros (Hscaled & Hraw & _) Hsome.
  destruct (present_or_missing props k) as [[v Hv]|Hk].
  - rewrite (Hscaled v Hv). destruct Hv as [_ Hv].
    destruct v; try reflexivity. now contradict Hv.
  - destruct Hsome as [[v Hv]|[r Hr]].
    + apply present_not_nullish in Hv. apply missing_nullish in Hk. congruence.
    + destruct (Hraw Hk r Hr) as (n & _ & ->). reflexivity.
Qed.

(** C4, as the code has it: a message object that decodes and holds a
    non-null field among [ax], [ay], [az], [ax_mg], [ay_mg], [az_mg] puts
    exactly one sample at the end of the accel buffer: the buffer becomes
    its old samples followed by the new one while it holds fewer than
    [MAX_POINTS] samples, and its old samples but the oldest followed by
    the new one once it is full, so the length grows by one below the cap
    and stays at [MAX_POINTS] at the cap; the fields of the new last
    element are the normalized values. *)
Theorem accel_message_appends_sample (P : Platform) (w : World)
  (topic : string) (payload : Payload) (props : list (string * json))
  (f : Fields) (d : Accel.Sample) :
  reachable P w ->
  JSON_parse P (trim P (raw_of P payload)) = inr (JObj props) ->
  fields P (JObj props) = inr f ->
  (exists k v,
     In k ["ax"; "ay"; "az"; "ax_mg"; "ay_mg"; "az_mg"] /\ present props k v) ->
  let w' := deliver P w (Message topic payload) in
  let x := accel_sample (toLocaleTimeString P (clock w)) f in
  accel w'
  = (if List.length (accel w) <? MAX_POINTS then accel w ++ [x]
     else tl (accel w) ++ [x]) /\
  List.length (accel w')
  = (if List.length (accel w) <? MAX_POINTS then S (List.length (accel w))
     else MAX_POINTS) /\
  last (accel w') d = x /\
  fallback_rule P props "ax" "ax_mg" 1000 (Accel.ax (last (accel w') d)) /\
  fallback_rule P props "ay" "ay_mg" 1000 (Accel.ay (last (accel w') d)) /\
  fallback_rule P props "az" "az_mg" 1000 (Accel.az (last (accel w') d)).
Proof.
  intros Hw Hparse Hf (k & v & Hin & Hv) w' x. subst w' x.
  destruct (fields_rules P props f Hf) as (Hax & Hay & Haz & _).
  assert (Hsome : existsb loose_ne_null [ax f; ay f; az f] = true).
  { cbn [existsb].
    cbn [In] in Hin.
    destruct Hin as [<-|[<-|[<-|[<-|[<-|[<-|[]]]]]]].
    - rewrite (fallback_rule_non_null P _ _ _ _ _ Hax) by eauto. reflexivity.
    - rewrite (fallback_rule_non_null P _ _ _ _ _ Hay) by eauto.
      now rewrite orb_true_r.
    - rewrite (fallback_rule_non_null P _ _ _ _ _ Haz) by eauto.
      now rewrite !orb_true_r.
    - rewrite (fallback_rule_non_null P _ _ _ _ _ Hax) by eauto. reflexivity.
    - rewrite (fallback_rule_non_null P _ _ _ _ _ Hay) by eauto.
      now rewrite orb_true_r.
    - rewrite (fallback_rule_non_null P _ _ _ _ _ Haz) by eauto.
      now rewrite !orb_true_r. }
  unfold deliver, dispatch.
  rewrite (on_message_returns P topic payload w _ f Hparse Hf).
  cbn [snd accel]. rewrite Hsome, push_capped_last, push_capped_length.
  destruct (reachable_bounded P w Hw) as [Hlen _].
  split.
  { destruct (Nat.ltb_spec (List.length (accel w)) MAX_POINTS).
    - now apply push_capped_below.
    - now apply push_capped_over. }
  split.
  { destruct (Nat.ltb_spec (List.length (accel w)) MAX_POINTS);
      [reflexivity|lia]. }
  split; [reflexivity|].
  cbn [accel_sample Accel.ax Accel.ay Accel.az]. auto.
Qed.

(** At the cap: the buffer holds [MAX_POINTS] samples stamped 0 to 299, and
    the message [{"ax_mg": 981, "gy_cds": 50}] leaves those stamped 1 to
    299 followed by its own. *)
Lemma accel_message_appends_sample_witness :
  let w := run engine (repeat (Message "jaeoh/imu" payload_accel) MAX_POINTS)
             mount in
  let w' := deliver engine w (Message "jaeoh/imu" payload_raw) in
  reachable engine w /\
  JSON_parse engine (trim engine (raw_of engine payload_raw)) = inr (JObj props_raw) /\
  (exists f, fields engine (JObj props_raw) = inr f) /\
  (exists k v,
     In k ["ax"; "ay"; "az"; "ax_mg"; "ay_mg"; "az_mg"] /\
     present props_raw k v) /\
  List.length (accel w) = MAX_POINTS /\
  accel w'
  = tl (accel w)
    ++ [{| Accel.t := "300"; Accel.ax := Some (JNum 0.981);
           Accel.ay := null; Accel.az := null |}] /\
  List.length (accel w') = MAX_POINTS.
Proof.
  intros w w'.
  assert (Hw : reachable engine w) by (apply reachable_run; constructor).
  assert (Hfield : exists k v,
            In k ["ax"; "ay"; "az"; "ax_mg"; "ay_mg"; "az_mg"] /\
            present props_raw k v).
  { exists "ax_mg", (JNum 981). split; [simpl; tauto|].
    split; [reflexivity|discriminate]. }
  assert (Hlen : List.length (accel w) = MAX_POINTS)
    by (vm_compute; reflexivity).
  destruct (accel_message_appends_sample engine w "jaeoh/imu"
              payload_raw props_raw _
              {| Accel.t := EmptyString; Accel.ax := null;
                 Accel.ay := null; Accel.az := null |}
              Hw eq_refl eq_refl Hfield) as (Hacc & Hlen' & _).
  cbv zeta in Hacc, Hlen'. fold w' in Hacc, Hlen'.
  rewrite Hlen, Nat.ltb_irrefl in Hacc, Hlen'.
  replace (toLocaleTimeString engine (clock w)) with "300" in Hacc
    by (vm_compute; reflexivity).
  split; [exact Hw|]. split; [reflexivity|].
  split; [eexists; reflexivity|]. split; [exact Hfield|].
  split; [exact Hlen|]. split; [exact Hacc | exact Hlen'].
Defined.

(** The buffer is full after [MAX_POINTS] accelerometer messages, and one
    more message leaves its length where it was. *)
Lemma accel_length_unchanged_when_full :
  let ev := Message "jaeoh/imu" payload_accel in
  let w := run engine (repeat ev MAX_POINTS) mount in
  reachable engine w /\
  JSON_parse engine (trim engine (raw_of engine payload_accel))
  = inr (JObj [("ax", JNum 1)]) /\
  List.length (accel w) = MAX_POINTS /\
  List.length (accel (deliver engine w ev)) <> S (List.length (accel w)).
Proof.
  intros ev w.
  split; [apply reachable_run; constructor|].
  split; [reflexivity|].
  split; [vm_compute; reflexivity|].
  vm_compute. discriminate.
Qed.

(** ** Messages that are not decoded *)

(** A text that does not parse, and a text that parses to a number, a
    string, a boolean or an array, are dropped: the handler returns and
    leaves the status and both buffers as they were. *)
Lemma on_message_discards (P : Platform) w topic payload :
  (exists e, JSON_parse P (trim P (raw_of P payload)) = inl e) \/
  (exists msg, JSON_parse P (trim P (raw_of P payload)) = inr msg /\
               msg <> JNull /\ forall props, msg <> JObj props) ->
  let out := on_message P topic payload w in
  fst out = inr tt /\
  status (snd out) = status w /\
  accel (snd out) = accel w /\
  gyro (snd out) = gyro w /\
  subscriptions (snd out) = subscriptions w.
Proof.
  intros [[e Hparse]|(msg & Hparse & Hnull & Hobj)] out; subst out.
  - rewrite (on_message_parse_failure P topic payload w e Hparse).
    repeat split.
  - rewrite (on_message_returns P topic payload w msg _ Hparse
               (fields_of_non_object P msg Hnull Hobj)).
    repeat split.
Qed.

(** A text that parses to [null] makes the handler throw at the first
    field it reads, after the two console entries and before any buffer is
    touched. *)
Lemma on_message_null (P : Platform) w topic payload :
  JSON_parse P (trim P (raw_of P payload)) = inr JNull ->
  let out := on_message P topic payload w in
  fst out = inl TypeError /\
  status (snd out) = status w /\
  accel (snd out) = accel w /\
  gyro (snd out) = gyro w.
Proof.
  intros Hparse out. subst out.
  rewrite (on_message_throws P topic payload w JNull TypeError Hparse
             (fields_of_null P)).
  repeat split.
Qed.

(** A raw field that holds an object with a [toString] member of its own
    cannot be converted to a number: the division throws. *)
Example raw_object_example :
  JSON_parse engine (trim engine (raw_of engine payload_raw_object))
  = inr (JObj [("ax_mg", JObj [("toString", JNum 0)])]) /\
  fst (on_message engine "jaeoh/imu" payload_raw_object mount) = inl TypeError.
Proof. split; reflexivity. Qed.

(** The same with a wrong-typed pre-scaled field beside it: the message
    [{"ax": "oops", "ay_mg": {"toString": 0}}] throws and nothing is
    pushed. *)
Example mixed_wrong_types_example :
  let payload :=
    Text ("{" ++ quoted "ax" ++ ": " ++ quoted "oops" ++ ", "
          ++ quoted "ay_mg" ++ ": {" ++ quoted "toString" ++ ": 0}}")%string in
  JSON_parse engine (trim engine (raw_of engine payload))
  = inr (JObj [("ax", JStr "oops"); ("ay_mg", JObj [("toString", JNum 0)])]) /\
  fst (on_message engine "jaeoh/imu" payload mount) = inl TypeError /\
  accel (snd (on_message engine "jaeoh/imu" payload mount)) = [].
Proof. repeat split. Qed.

(** C3, where the handler misses it: the payload [null] parses to a value
    that is not an object, and the handler throws a [TypeError] instead of
    returning. *)
Theorem null_payload_throws :
  JSON_parse engine (trim engine (raw_of engine payload_null)) = inr JNull /\
  on_message engine "jaeoh/imu" payload_null mount
  = (inl TypeError,
     {| status := connecting; accel := []; gyro := [];
        console := [console_log [AStr "[RAW]"; AStr "null"];
                    console_log [AStr "[RX]"; AVal null]];
        subscriptions := []; clock := 1 |}).
Proof. split; reflexivity. Qed.

(** The payload [{bad json] of the specification is dropped with a warning. *)
Example bad_json_example :
  on_message engine "jaeoh/imu" payload_bad_json mount
  = (inr tt,
     {| status := connecting; accel := []; gyro := [];
        console := [console_log [AStr "[RAW]"; AStr "{bad json"];
                    console_warn [AStr "JSON parse failed:"; AExn SyntaxError;
                                  AStr "{bad json"]];
        subscriptions := []; clock := 0 |}).
Proof. reflexivity. Qed.

Lemma field_of_rule (P : Platform) props f k v :
  fields P (JObj props) = inr f ->
  In k ["ax"; "ay"; "az"; "gx"; "gy"; "gz"] ->
  present props k v ->
  field_of k f = Some v.
Proof.
  intros Hf Hin Hv.
  destruct (fields_rules P props f Hf)
    as ((Hax & _) & (Hay & _) & (Haz & _) & (Hgx & _) & (Hgy & _) & (Hgz & _)).
  cbn [In] in Hin.
  destruct Hin as [<-|[<-|[<-|[<-|[<-|[<-|[]]]]]]]; cbn; auto.
Qed.

Lemma scalar_raw_fields_decode (P : Platform) props :
  scalar_raw_fields props -> exists f, fields P (JObj props) = inr f.
Proof.
  intros Hscalar.
  assert (Hraw : forall k kraw scale, In kraw raw_keys ->
            exists out, field_expr P (JObj props) k kraw scale = inr out).
  { intros k kraw scale Hin. apply field_expr_returns.
    intros v Hv. now apply (Hscalar kraw v). }
  destruct (Hraw "ax" "ax_mg" 1000%float) as [vax Hax]; [simpl; tauto|].
  destruct (Hraw "ay" "ay_mg" 1000%float) as [vay Hay]; [simpl; tauto|].
  destruct (Hraw "az" "az_mg" 1000%float) as [vaz Haz]; [simpl; tauto|].
  destruct (Hraw "gx" "gx_cds" 100%float) as [vgx Hgx]; [simpl; tauto|].
  destruct (Hraw "gy" "gy_cds" 100%float) as [vgy Hgy]; [simpl; tauto|].
  destruct (Hraw "gz" "gz_cds" 100%float) as [vgz Hgz]; [simpl; tauto|].
  eexists. apply fields_intro; eassumption.
Qed.

(** C7, as the code has it: a text that is not JSON is dropped: the
    handler returns, logs the text and a warning, leaves the status and the
    buffers alone, and the next events are handled from there.  The types
    of the fields are not checked.  A message object decodes without an
    exception whenever none of its raw fields holds an array or an object;
    and whenever a message object decodes, the handler returns, a non-null
    pre-scaled field is decoded to its value whatever its type, and the
    sample is pushed to the buffer. *)
Theorem decode_errors_as_handled (P : Platform) (w : World) (topic : string)
  (payload : Payload) :
  let ev := Message topic payload in
  let w' := deliver P w ev in
  let t := toLocaleTimeString P (clock w) in
  (forall e,
     JSON_parse P (trim P (raw_of P payload)) = inl e ->
     dispatch P ev w = (inr tt, w') /\
     status w' = status w /\ accel w' = accel w /\ gyro w' = gyro w /\
     console w'
     = console w ++
       [console_log [AStr "[RAW]"; AStr (raw_of P payload)];
        console_warn [AStr "JSON parse failed:"; AExn e;
                      AStr (raw_of P payload)]] /\
     forall evs, run P (ev :: evs) w = run P evs w') /\
  (forall props,
     JSON_parse P (trim P (raw_of P payload)) = inr (JObj props) ->
     scalar_raw_fields props ->
     exists f, fields P (JObj props) = inr f) /\
  (forall props f,
     JSON_parse P (trim P (raw_of P payload)) = inr (JObj props) ->
     fields P (JObj props) = inr f ->
     dispatch P ev w = (inr tt, w') /\
     forall k v,
       present props k v ->
       (In k ["ax"; "ay"; "az"] ->
        field_of k f = Some v /\
        accel w' = push_capped (accel_sample t f) (accel w)) /\
       (In k ["gx"; "gy"; "gz"] ->
        field_of k f = Some v /\
        gyro w' = push_capped (gyro_sample t f) (gyro w))).
Proof.
  intros ev w' t. subst ev w' t. split; [|split].
  - intros e Hparse.
    pose proof (on_message_parse_failure P topic payload w e Hparse) as Hout.
    assert (Hw' : deliver P w (Message topic payload)
                  = snd (on_message P topic payload w)) by reflexivity.
    split; [cbn [dispatch]; rewrite Hw', Hout; reflexivity|].
    rewrite Hw', Hout. cbn [snd status accel gyro console].
    split; [reflexivity|]. split; [reflexivity|]. split; [reflexivity|].
    split; [now rewrite <- app_assoc|].
    intros evs. cbn [run fold_left]. now rewrite Hw', Hout.
  - intros props _ Hscalar. now apply scalar_raw_fields_decode.
  - intros props f Hparse Hf. split.
    { unfold deliver. cbn [dispatch].
      now rewrite (on_message_returns P topic payload w _ f Hparse Hf). }
    intros k v Hv.
    assert (Hdec : decoded P payload = Some f).
    { unfold decoded. now rewrite Hparse, Hf. }
    destruct (routing_non_null P w topic payload f Hdec) as [Ha Hg].
    split; intros Hin.
    + assert (Hk : field_of k f = Some v).
      { apply (field_of_rule P props); [assumption| |assumption].
        cbn [In] in Hin |- *. tauto. }
      split; [exact Hk|]. apply Ha.
      destruct Hv as [_ Hv]. cbn [In] in Hin.
      destruct Hin as [<-|[<-|[<-|[]]]]; cbn in Hk; rewrite Hk;
        destruct v; try (now contradict Hv); cbn; now rewrite ?orb_true_r.
    + assert (Hk : field_of k f = Some v).
      { apply (field_of_rule P props); [assumption| |assumption].
        cbn [In] in Hin |- *. tauto. }
      split; [exact Hk|]. apply Hg.
      destruct Hv as [_ Hv]. cbn [In] in Hin.
      destruct Hin as [<-|[<-|[<-|[]]]]; cbn in Hk; rewrite Hk;
        destruct v; try (now contradict Hv); cbn; now rewrite ?orb_true_r.
Qed.

Lemma decode_errors_as_handled_witness :
  let props := [("ax", JStr "oops")] in
  let w' := deliver engine mount (Message "jaeoh/imu" payload_wrong_type) in
  JSON_parse engine (trim engine (raw_of engine payload_bad_json))
  = inl SyntaxError /\
  accel (deliver engine mount (Message "jaeoh/imu" payload_bad_json))
  = accel mount /\
  JSON_parse engine (trim engine (raw_of engine payload_wrong_type))
  = inr (JObj props) /\
  scalar_raw_fields props /\
  present props "ax" (JStr "oops") /\
  exists f,
    fields engine (JObj props) = inr f /\
    dispatch engine (Message "jaeoh/imu" payload_wrong_type) mount = (inr tt, w') /\
    field_of "ax" f = Some (JStr "oops") /\
    accel w' = push_capped (accel_sample "0" f) [].
Proof.
  intros props w'.
  assert (Hv : present props "ax" (JStr "oops"))
    by (split; [reflexivity|discriminate]).
  assert (Hscalar : scalar_raw_fields props).
  { intros k v _. unfold props. cbn [own_property].
    destruct (String.eqb "ax" k); [|discriminate].
    intros H. injection H as <-. reflexivity. }
  split; [reflexivity|].
  split.
  { destruct (decode_errors_as_handled engine mount "jaeoh/imu" payload_bad_json)
      as [Hbad _].
    destruct (Hbad SyntaxError eq_refl) as (_ & _ & Haccel & _).
    exact Haccel. }
  split; [reflexivity|]. split; [exact Hscalar|]. split; [exact Hv|].
  destruct (decode_errors_as_handled engine mount "jaeoh/imu" payload_wrong_type)
    as (_ & Hreturns & Htyped).
  destruct (Hreturns props eq_refl Hscalar) as [f Hf].
  destruct (Htyped props f eq_refl Hf) as [Hout Hfield].
  destruct (Hfield "ax" (JStr "oops") Hv) as [Haccel _].
  exists f. split; [exact Hf|]. split; [exact Hout|].
  apply Haccel. simpl. tauto.
Defined.

(** A message whose [ax] is a string is not discarded: the string goes
    into the accel buffer. *)
Lemma wrong_type_is_stored :
  JSON_parse engine (trim engine (raw_of engine payload_wrong_type))
  = inr (JObj [("ax", JStr "oops")]) /\
  accel (deliver engine mount (Message "jaeoh/imu" payload_wrong_type))
  = [{| Accel.t := "0"; Accel.ax := Some (JStr "oops");
        Accel.ay := null; Accel.az := null |}] /\
  accel (deliver engine mount (Message "jaeoh/imu" payload_wrong_type))
  <> accel mount.
Proof.
  split; [reflexivity|]. split; [reflexivity|].
  vm_compute. discriminate.
Qed.

(** * Further properties of the component *)

(** ** Lifecycle events *)

Lemma deliver_status (P : Platform) w ev :
  status (deliver P w ev) = last (status_set_by ev) (status w).
Proof.
  destruct ev as [| | | |e|topic payload|err granted]; try reflexivity.
  - apply on_message_status.
  - unfold deliver, dispatch, onSubscribed. destruct err; reflexivity.
Qed.

Lemma last_app_default {A : Type} (l1 l2 : list A) d :
  last (l1 ++ l2) d = last l2 (last l1 d).
Proof.
  induction l2 as [|x l2 _] using rev_ind.
  - now rewrite app_nil_r.
  - now rewrite app_assoc, !last_last.
Qed.

(** X1: the status after any run of events is the one set by the last
    lifecycle event of the run, and the status before the run when it holds
    no lifecycle event: no status sticks, and messages and subscription
    callbacks never show in it. *)
Theorem status_is_last_lifecycle_event (P : Platform) (evs : list Event)
  (w : World) :
  status (run P evs w) = last (flat_map status_set_by evs) (status w).
Proof.
  revert w. induction evs as [|ev evs IH]; intros w; [reflexivity|].
  cbn [run fold_left flat_map].
  change (fold_left (deliver P) evs (deliver P w ev))
    with (run P evs (deliver P w ev)).
  now rewrite IH, deliver_status, last_app_default.
Qed.

(** The three outcomes of the message handler, as cases of a proof. *)
Ltac message_outcome P topic payload w :=
  let e := fresh "e" in
  let msg := fresh "msg" in
  let f := fresh "f" in
  let Hparse := fresh "Hparse" in
  let Hfields := fresh "Hfields" in
  destruct (JSON_parse P (trim P (raw_of P payload))) as [e|msg] eqn:Hparse;
  [ rewrite (on_message_parse_failure P topic payload w e Hparse)
  | destruct (fields P msg) as [e|f] eqn:Hfields;
    [ rewrite (on_message_throws P topic payload w msg e Hparse Hfields)
    | rewrite (on_message_returns P topic payload w msg f Hparse Hfields) ] ].

Lemma deliver_not_message (P : Platform) w ev :
  is_message ev = false ->
  accel (deliver P w ev) = accel w /\
  gyro (deliver P w ev) = gyro w /\
  clock (deliver P w ev) = clock w.
Proof.
  destruct ev as [| | | |e|topic payload|err granted]; intros Hev;
    try discriminate; try (repeat split; reflexivity).
  unfold deliver, dispatch, onSubscribed. destruct err; repeat split.
Qed.

(** X2: a run of events that holds no message (connects, reconnects,
    closes, offlines, errors, subscription callbacks) leaves both buffers
    as they were: the samples already shown survive a lost connection. *)
Theorem buffers_survive_lifecycle_events (P : Platform) (evs : list Event)
  (w : World) :
  Forall (fun ev => is_message ev = false) evs ->
  accel (run P evs w) = accel w /\ gyro (run P evs w) = gyro w.
Proof.
  revert w. induction evs as [|ev evs IH]; intros w Hall; [now split|].
  inversion Hall as [|? ? Hev Hrest]; subst.
  cbn [run fold_left].
  change (fold_left (deliver P) evs (deliver P w ev))
    with (run P evs (deliver P w ev)).
  destruct (IH (deliver P w ev) Hrest) as [-> ->].
  destruct (deliver_not_message P w ev Hev) as (Ha & Hg & _).
  now split.
Qed.

Lemma buffers_survive_lifecycle_events_witness :
  let w := deliver engine mount (Message "jaeoh/imu" payload_raw) in
  let evs := [Close; Offline; Reconnect; Error "refused"; Connect;
              Subscribed None (Some ["jaeoh/imu"])] in
  Forall (fun ev => is_message ev = false) evs /\
  List.length (accel (run engine evs w)) = 1 /\
  List.length (gyro (run engine evs w)) = 1.
Proof.
  intros w evs.
  assert (Hall : Forall (fun ev => is_message ev = false) evs)
    by (repeat constructor).
  split; [exact Hall|].
  destruct (buffers_survive_lifecycle_events engine evs w Hall) as [-> ->].
  split; reflexivity.
Defined.

Lemma deliver_subscriptions (P : Platform) w ev :
  subscriptions (deliver P w ev)
  = subscriptions w ++ (if is_connect ev then [(TOPIC P, 0)] else []).
Proof.
  destruct ev as [| | | |e|topic payload|err granted]; cbn [is_connect];
    try (now rewrite app_nil_r); [reflexivity| |].
  - unfold deliver, dispatch.
    message_outcome P topic payload w; cbn [snd subscriptions];
      now rewrite app_nil_r.
  - unfold deliver, dispatch, onSubscribed.
    destruct err; cbn; now rewrite app_nil_r.
Qed.

(** X3: the component subscribes once for each connect event, always to
    [TOPIC] at QoS 0, and nothing else adds or removes a subscription. *)
Theorem one_subscription_per_connect (P : Platform) (evs : list Event)
  (w : World) :
  subscriptions (run P evs w)
  = subscriptions w
    ++ repeat (TOPIC P, 0) (List.length (filter is_connect evs)).
Proof.
  revert w. induction evs as [|ev evs IH]; intros w.
  - cbn. now rewrite app_nil_r.
  - cbn [run fold_left filter].
    change (fold_left (deliver P) evs (deliver P w ev))
      with (run P evs (deliver P w ev)).
    rewrite IH, deliver_subscriptions, <- app_assoc.
    destruct (is_connect ev); reflexivity.
Qed.

(** X4: the topic is never the empty string: it is the configured topic
    when one is configured and not empty, and ["jaeoh/imu"] otherwise. *)
Theorem topic_never_empty (P : Platform) :
  TOPIC P <> EmptyString /\
  (forall s, VITE_MQTT_TOPIC P = Some s -> s <> EmptyString -> TOPIC P = s) /\
  (VITE_MQTT_TOPIC P = None \/ VITE_MQTT_TOPIC P = Some EmptyString ->
   TOPIC P = "jaeoh/imu").
Proof.
  unfold TOPIC. destruct (VITE_MQTT_TOPIC P) as [[|c s]|].
  - repeat split; try discriminate. intros s [= <-] Hs. now contradict Hs.
  - repeat split; try discriminate.
    + now intros s' [= <-] _.
    + intros [H|H]; discriminate.
  - repeat split; discriminate.
Qed.

Lemma topic_never_empty_witness :
  VITE_MQTT_TOPIC engine = None /\ TOPIC engine = "jaeoh/imu".
Proof.
  split; [reflexivity|].
  apply (topic_never_empty engine). left. reflexivity.
Defined.

(** ** The buffers under any run of events *)

Lemma gyro_fields_inv (P : Platform) ev f :
  gyro_fields P ev = Some f ->
  exists topic payload,
    ev = Message topic payload /\ decoded P payload = Some f /\
    existsb loose_ne_null [gx f; gy f; gz f] = true.
Proof.
  destruct ev as [| | | |e|topic payload|err granted]; try discriminate.
  cbn [gyro_fields].
  destruct (decoded P payload) as [f'|] eqn:Hdec; [|discriminate].
  destruct (existsb loose_ne_null [gx f'; gy f'; gz f']) eqn:Hsome;
    [|discriminate].
  intros H. injection H as <-. exists topic, payload. auto.
Qed.

(** What one event of any kind does to the buffers and to the clock. *)
Lemma deliver_buffers (P : Platform) w ev :
  accel (deliver P w ev)
  = match accel_fields P ev with
    | Some f =>
        push_capped (accel_sample (toLocaleTimeString P (clock w)) f) (accel w)
    | None => accel w
    end /\
  gyro (deliver P w ev)
  = match gyro_fields P ev with
    | Some f =>
        push_capped (gyro_sample (toLocaleTimeString P (clock w)) f) (gyro w)
    | None => gyro w
    end /\
  clock (deliver P w ev) = if parsed P ev then S (clock w) else clock w.
Proof.
  destruct (is_message ev) eqn:Hev.
  - destruct ev as [| | | |e|topic payload|err granted]; try discriminate.
    unfold deliver, dispatch, accel_fields, gyro_fields, decoded, parsed.
    message_outcome P topic payload w; cbn [snd accel gyro clock];
      try (repeat split; reflexivity).
    destruct (existsb loose_ne_null [ax f; ay f; az f]);
      destruct (existsb loose_ne_null [gx f; gy f; gz f]);
      repeat split; reflexivity.
  - destruct (deliver_not_message P w ev Hev) as (-> & -> & ->).
    destruct ev; try discriminate; repeat split; reflexivity.
Qed.

(** C2: in every reachable world, after the handler of any message has
    run, both buffers hold at most [MAX_POINTS] samples, and each buffer is
    a sliding window: a message that is routed to it leaves it with the
    message's sample appended, after all the old samples when they were
    fewer than [MAX_POINTS], and after all of them but the oldest when the
    buffer was full; a message that is not routed to it leaves it as it
    was. *)
Theorem buffers_are_sliding_windows (P : Platform) (w : World)
  (topic : string) (payload : Payload) :
  reachable P w ->
  let ev := Message topic payload in
  let w' := deliver P w ev in
  let t := toLocaleTimeString P (clock w) in
  List.length (accel w') <= MAX_POINTS /\
  List.length (gyro w') <= MAX_POINTS /\
  match accel_fields P ev with
  | Some f =>
      accel w'
      = if List.length (accel w) <? MAX_POINTS
        then accel w ++ [accel_sample t f]
        else tl (accel w) ++ [accel_sample t f]
  | None => accel w' = accel w
  end /\
  match gyro_fields P ev with
  | Some f =>
      gyro w'
      = if List.length (gyro w) <? MAX_POINTS
        then gyro w ++ [gyro_sample t f]
        else tl (gyro w) ++ [gyro_sample t f]
  | None => gyro w' = gyro w
  end.
Proof.
  intros Hw ev w' t. subst w' t.
  destruct (reachable_bounded P (deliver P w ev) (reach_deliver P w ev Hw))
    as [Ha' Hg'].
  split; [exact Ha'|]. split; [exact Hg'|].
  destruct (deliver_buffers P w ev) as (-> & -> & _). split.
  - destruct (accel_fields P ev) as [f|]; [|reflexivity].
    destruct (Nat.ltb_spec (List.length (accel w)) MAX_POINTS).
    + now apply push_capped_below.
    + now apply push_capped_over.
  - destruct (gyro_fields P ev) as [f|]; [|reflexivity].
    destruct (Nat.ltb_spec (List.length (gyro w)) MAX_POINTS).
    + now apply push_capped_below.
    + now apply push_capped_over.
Qed.

(** At the cap: after [MAX_POINTS] accelerometer messages, stamped 0 to
    299, one more message leaves the samples stamped 1 to 300. *)
Lemma buffers_are_sliding_windows_witness :
  let ev := Message "jaeoh/imu" payload_accel in
  let w := run engine (repeat ev MAX_POINTS) mount in
  let w' := deliver engine w ev in
  reachable engine w /\
  List.length (accel w) = MAX_POINTS /\
  accel w'
  = tl (accel w)
    ++ [{| Accel.t := "300"; Accel.ax := Some (JNum 1);
           Accel.ay := null; Accel.az := null |}] /\
  hd_error (map Accel.t (accel w)) = Some "0" /\
  hd_error (map Accel.t (accel w')) = Some "1" /\
  gyro w' = gyro w.
Proof.
  intros ev w w'.
  assert (Hw : reachable engine w) by (apply reachable_run; constructor).
  assert (Hlen : List.length (accel w) = MAX_POINTS)
    by (vm_compute; reflexivity).
  destruct (buffers_are_sliding_windows engine w "jaeoh/imu" payload_accel Hw)
    as (_ & _ & Hacc & Hgyro).
  cbv zeta in Hacc, Hgyro. fold ev in Hacc, Hgyro. fold w' in Hacc, Hgyro.
  replace (accel_fields engine ev)
    with (Some {| ax := Some (JNum 1); ay := null; az := null;
                  gx := null; gy := null; gz := null |}) in Hacc
    by (vm_compute; reflexivity).
  replace (gyro_fields engine ev) with (@None Fields) in Hgyro
    by (vm_compute; reflexivity).
  rewrite Hlen, Nat.ltb_irrefl in Hacc.
  replace (toLocaleTimeString engine (clock w)) with "300" in Hacc
    by (vm_compute; reflexivity).
  split; [exact Hw|]. split; [exact Hlen|]. split; [exact Hacc|].
  split; [vm_compute; reflexivity|].
  split; [rewrite Hacc; vm_compute; reflexivity | exact Hgyro].
Defined.

Lemma run_streams (P : Platform) evs : forall w,
  accel (run P evs w)
  = fold_left (fun buf x => push_capped x buf)
      (accel_stream P (clock w) evs) (accel w) /\
  gyro (run P evs w)
  = fold_left (fun buf x => push_capped x buf)
      (gyro_stream P (clock w) evs) (gyro w).
Proof.
  induction evs as [|ev evs IH]; intros w; [split; reflexivity|].
  cbn [run fold_left accel_stream gyro_stream].
  change (fold_left (deliver P) evs (deliver P w ev))
    with (run P evs (deliver P w ev)).
  destruct (IH (deliver P w ev)) as [-> ->].
  destruct (deliver_buffers P w ev) as (-> & -> & ->).
  rewrite !fold_left_app.
  destruct (accel_fields P ev), (gyro_fields P ev); split; reflexivity.
Qed.

(** X5: after any run of events, of any kinds and in any order, each
    buffer within the cap holds the most recent [MAX_POINTS] of its old
    samples followed by the samples the run sent to it, in arrival order;
    events that send it nothing leave no gap in it. *)
Theorem buffers_hold_most_recent_samples (P : Platform) (evs : list Event)
  (w : World) :
  List.length (accel w) <= MAX_POINTS ->
  List.length (gyro w) <= MAX_POINTS ->
  accel (run P evs w)
  = most_recent MAX_POINTS (accel w ++ accel_stream P (clock w) evs) /\
  gyro (run P evs w)
  = most_recent MAX_POINTS (gyro w ++ gyro_stream P (clock w) evs).
Proof.
  intros Ha Hg. destruct (run_streams P evs w) as [-> ->].
  split; now apply fold_push_capped.
Qed.

Lemma buffers_hold_most_recent_samples_witness :
  let evs := [Message "jaeoh/imu" payload_accel; Close;
              Message "jaeoh/imu" payload_bad_json; Connect;
              Message "jaeoh/imu" payload_raw;
              Message "jaeoh/imu" payload_gyro] in
  List.length (accel mount) <= MAX_POINTS /\
  List.length (gyro mount) <= MAX_POINTS /\
  map Accel.t (accel (run engine evs mount)) = ["0"; "1"] /\
  map Gyro.t (gyro (run engine evs mount)) = ["1"; "2"].
Proof.
  intros evs.
  assert (Hlen : 0 <= MAX_POINTS) by apply Nat.le_0_l.
  split; [exact Hlen|]. split; [exact Hlen|].
  destruct (buffers_hold_most_recent_samples engine evs mount Hlen Hlen)
    as [-> ->].
  split; reflexivity.
Defined.

(** X6: in a reachable world no run of events makes a buffer shorter, and
    none makes it longer than [MAX_POINTS]: a buffer that is full stays
    full. *)
Theorem buffers_never_shrink (P : Platform) (evs : list Event) (w : World) :
  reachable P w ->
  List.length (accel w) <= List.length (accel (run P evs w)) <= MAX_POINTS /\
  List.length (gyro w) <= List.length (gyro (run P evs w)) <= MAX_POINTS.
Proof.
  revert w. induction evs as [|ev evs IH]; intros w Hw.
  - destruct (reachable_bounded P w Hw). cbn [run fold_left]. lia.
  - cbn [run fold_left].
    change (fold_left (deliver P) evs (deliver P w ev))
      with (run P evs (deliver P w ev)).
    destruct (IH (deliver P w ev) (reach_deliver P w ev Hw)) as [Ha Hg].
    destruct (reachable_bounded P w Hw) as [Hla Hlg].
    assert (Hsa : List.length (accel w) <= List.length (accel (deliver P w ev))).
    { destruct (deliver_accel P w ev) as [->|[x ->]]; [lia|].
      rewrite push_capped_length.
      destruct (Nat.ltb_spec (List.length (accel w)) MAX_POINTS); lia. }
    assert (Hsg : List.length (gyro w) <= List.length (gyro (deliver P w ev))).
    { destruct (deliver_gyro P w ev) as [->|[x ->]]; [lia|].
      rewrite push_capped_length.
      destruct (Nat.ltb_spec (List.length (gyro w)) MAX_POINTS); lia. }
    lia.
Qed.

Lemma buffers_never_shrink_witness :
  let evs := [Message "jaeoh/imu" payload_bad_json; Close] in
  let w := deliver engine mount (Message "jaeoh/imu" payload_raw) in
  reachable engine w /\
  1 <= List.length (accel (run engine evs w)) <= MAX_POINTS.
Proof.
  intros evs w.
  assert (Hw : reachable engine w) by (repeat constructor).
  split; [exact Hw|].
  exact (proj1 (buffers_never_shrink engine evs w Hw)).
Defined.

Lemma Forall_push_capped {A : Type} (Q : A -> Prop) x prev :
  Forall Q prev -> Q x -> Forall Q (push_capped x prev).
Proof.
  intros Hprev Hx. unfold push_capped.
  assert (Hnext : Forall Q (prev ++ [x])).
  { apply Forall_app. split; [assumption|]. now constructor. }
  destruct (MAX_POINTS <? List.length (prev ++ [x])); [|assumption].
  destruct (prev ++ [x]) as [|y next]; [constructor|].
  now inversion Hnext.
Qed.

Lemma non_null_of_some (a b c : value) :
  existsb loose_ne_null [a; b; c] = true ->
  a <> null \/ b <> null \/ c <> null.
Proof.
  destruct a as [[]|], b as [[]|], c as [[]|]; cbn; intros H;
    try discriminate;
    try (left; discriminate); try (right; left; discriminate);
    right; right; discriminate.
Qed.

(** X7: in every reachable world, every sample in either buffer has no
    [undefined] axis and at least one axis that is not [null]: no empty
    sample is ever stored. *)
Theorem stored_samples_have_a_value (P : Platform) (w : World) :
  reachable P w ->
  Forall accel_sample_ok (accel w) /\ Forall gyro_sample_ok (gyro w).
Proof.
  induction 1 as [|w ev _ [IHa IHg]]; [split; constructor|].
  destruct (deliver_buffers P w ev) as (-> & -> & _). split.
  - destruct (accel_fields P ev) as [f|] eqn:Hf; [|assumption].
    destruct (accel_fields_inv P ev f Hf) as (topic & payload & _ & Hdec & Hsome).
    destruct (decoded_inv P payload f Hdec) as (msg & _ & Hfields).
    destruct (fields_defined P msg f Hfields) as [Hdef _].
    apply Forall_push_capped; [assumption|].
    split; [exact Hdef | now apply non_null_of_some].
  - destruct (gyro_fields P ev) as [f|] eqn:Hf; [|assumption].
    destruct (gyro_fields_inv P ev f Hf) as (topic & payload & _ & Hdec & Hsome).
    destruct (decoded_inv P payload f Hdec) as (msg & _ & Hfields).
    destruct (fields_defined P msg f Hfields) as [_ Hdef].
    apply Forall_push_capped; [assumption|].
    split; [exact Hdef | now apply non_null_of_some].
Qed.

Lemma stored_samples_have_a_value_witness :
  let w := run engine [Message "jaeoh/imu" payload_raw;
                       Message "jaeoh/imu" (Text "{}")] mount in
  reachable engine w /\ Forall accel_sample_ok (accel w).
Proof.
  intros w.
  assert (Hw : reachable engine w) by (apply reachable_run; constructor).
  split; [exact Hw|].
  exact (proj1 (stored_samples_have_a_value engine w Hw)).
Defined.

(** ** What the handler throws *)

Section JsonInduction.

Variable Q : json -> Prop.
Hypothesis HNull : Q JNull.
Hypothesis HBool : forall b, Q (JBool b).
Hypothesis HNum : forall n, Q (JNum n).
Hypothesis HStr : forall s, Q (JStr s).
Hypothesis HArr : forall elems, Forall Q elems -> Q (JArr elems).
Hypothesis HObj : forall props, Q (JObj props).

(** Induction on a parsed value, with the elements of an array. *)
Lemma json_elems_ind : forall j, Q j.
Proof.
  fix IH 1.
  intros [|b|n|s|elems|props];
    [exact HNull | apply HBool | apply HNum | apply HStr | | apply HObj].
  apply HArr. induction elems as [|x rest IHrest]; constructor.
  - apply IH.
  - exact IHrest.
Qed.

End JsonInduction.

Lemma rbind_inl {A B : Type} (r : result A) (k : A -> result B) e :
  rbind r k = inl e -> r = inl e \/ exists a, r = inr a /\ k a = inl e.
Proof. destruct r as [e'|a]; cbn; [intros [= ->]; now left | eauto]. Qed.

Lemma ToString_throws (P : Platform) j e :
  ToString P j = inl e -> e = TypeError.
Proof.
  revert e. induction j as [|b|n|s|elems IH|props] using json_elems_ind;
    intros e; cbn [ToString]; try discriminate.
  - destruct b; discriminate.
  - induction IH as [|x rest Hx _ IHrest]; [discriminate|].
    intros Heq. apply rbind_inl in Heq as [Hhead|(s & _ & Htail)].
    + destruct x; try discriminate; now apply Hx.
    + destruct rest as [|y rest]; [discriminate|].
      apply rbind_inl in Htail as [Htail|(r & _ & Htail)]; [|discriminate].
      now apply IHrest.
  - destruct (own_property props "toString"); [|discriminate].
    now intros [= <-].
Qed.

Lemma ToNumber_throws (P : Platform) v e :
  ToNumber P v = inl e -> e = TypeError.
Proof.
  destruct v as [[|[]|n|s|elems|props]|]; cbn [ToNumber]; try discriminate;
    intros H; apply rbind_inl in H as [H|(s & _ & H)];
    try discriminate; now apply (ToString_throws P _ _ H).
Qed.

Lemma field_expr_throws (P : Platform) msg k kraw scale e :
  field_expr P msg k kraw scale = inl e -> e = TypeError.
Proof.
  destruct msg as [| | | | |props]; try (cbv; congruence).
  rewrite field_expr_object.
  destruct (loose_eq_null (own_property props k)); [|discriminate].
  destruct (loose_eq_null (own_property props kraw)); [discriminate|].
  unfold js_div. intros H. apply rbind_inl in H as [H|(n & _ & H)];
    [now apply (ToNumber_throws P _ _ H) | discriminate].
Qed.

Lemma fields_throws (P : Platform) msg e :
  fields P msg = inl e ->
  e = TypeError /\ (msg = JNull \/ exists props, msg = JObj props).
Proof.
  intros H. split.
  - rewrite fields_unfold in H.
    repeat (apply rbind_inl in H as [H|(? & _ & H)];
            [now apply (field_expr_throws P _ _ _ _ _ H)|]).
    discriminate.
  - destruct msg as [| | | | |props]; eauto; discriminate.
Qed.

(** X8: the only exception that leaves the message handler is a
    [TypeError], and only for a text that parsed to [null] or to an object;
    a parse error never leaves it.  When the handler throws, the status and
    both buffers are as they were before the message. *)
Theorem handler_throws_only_type_errors (P : Platform) (w : World)
  (topic : string) (payload : Payload) (e : exn) :
  fst (on_message P topic payload w) = inl e ->
  e = TypeError /\
  (exists msg,
     JSON_parse P (trim P (raw_of P payload)) = inr msg /\
     (msg = JNull \/ exists props, msg = JObj props)) /\
  status (snd (on_message P topic payload w)) = status w /\
  accel (snd (on_message P topic payload w)) = accel w /\
  gyro (snd (on_message P topic payload w)) = gyro w.
Proof.
  message_outcome P topic payload w; cbn [fst snd status accel gyro];
    try discriminate.
  intros [= <-]. destruct (fields_throws P msg e0 Hfields) as [-> Hmsg].
  repeat split. now exists msg.
Qed.

Lemma handler_throws_only_type_errors_witness :
  fst (on_message engine "jaeoh/imu" payload_raw_object mount) = inl TypeError /\
  accel (snd (on_message engine "jaeoh/imu" payload_raw_object mount)) = [].
Proof.
  split; [reflexivity|].
  apply (handler_throws_only_type_errors engine mount "jaeoh/imu"
           payload_raw_object TypeError eq_refl).
Defined.

(** X9: a text that parses to a number, a string, a boolean or an array
    is dropped without an exception: the handler logs the text and the
    parsed value, reads the clock once and changes nothing else. *)
Theorem non_object_values_are_dropped (P : Platform) (w : World)
  (topic : string) (payload : Payload) (msg : json) :
  JSON_parse P (trim P (raw_of P payload)) = inr msg ->
  msg <> JNull ->
  (forall props, msg <> JObj props) ->
  on_message P topic payload w
  = (inr tt,
     {| status := status w; accel := accel w; gyro := gyro w;
        console :=
          console w ++
          [console_log [AStr "[RAW]"; AStr (raw_of P payload)];
           console_log [AStr "[RX]"; AVal (Some msg)]];
        subscriptions := subscriptions w; clock := S (clock w) |}).
Proof.
  intros Hparse Hnull Hobj.
  rewrite (on_message_returns P topic payload w msg _ Hparse
             (fields_of_non_object P msg Hnull Hobj)).
  cbn. now rewrite <- app_assoc.
Qed.

Lemma non_object_values_are_dropped_witness :
  let msg := JArr [JNum 1; JNum 2] in
  JSON_parse engine (trim engine (raw_of engine payload_array)) = inr msg /\
  msg <> JNull /\
  (forall props, msg <> JObj props) /\
  fst (on_message engine "jaeoh/imu" payload_array mount) = inr tt.
Proof.
  intros msg.
  assert (Hnull : msg <> JNull) by discriminate.
  assert (Hobj : forall props, msg <> JObj props) by discriminate.
  split; [reflexivity|]. split; [exact Hnull|]. split; [exact Hobj|].
  now rewrite (non_object_values_are_dropped engine mount "jaeoh/imu"
                 payload_array msg eq_refl Hnull Hobj).
Defined.

(** X10: every message, whatever becomes of it, adds exactly two console
    entries: first the raw text, then a warning with the exception when
    the text does not parse, and the parsed value when it does, also when
    the handler throws afterwards. *)
Theorem every_message_is_logged (P : Platform) (w : World) (topic : string)
  (payload : Payload) :
  console (deliver P w (Message topic payload))
  = console w ++
    [console_log [AStr "[RAW]"; AStr (raw_of P payload)];
     match JSON_parse P (trim P (raw_of P payload)) with
     | inl e =>
         console_warn [AStr "JSON parse failed:"; AExn e;
                       AStr (raw_of P payload)]
     | inr msg => console_log [AStr "[RX]"; AVal (Some msg)]
     end].
Proof.
  unfold deliver, dispatch.
  message_outcome P topic payload w; cbn [snd console];
    now rewrite <- app_assoc.
Qed.

(** ** What a message is decoded from *)

Lemma field_expr_agree (P : Platform) props1 props2 k kraw scale :
  own_property props1 k = own_property props2 k ->
  own_property props1 kraw = own_property props2 kraw ->
  field_expr P (JObj props1) k kraw scale
  = field_expr P (JObj props2) k kraw scale.
Proof. intros Hk Hraw. now rewrite !field_expr_object, Hk, Hraw. Qed.

(** X11: fields other than the twelve recognized ones are ignored: two
    message objects that agree on the recognized keys decode to the same
    fields (or throw the same exception) and do the same to both buffers. *)
Theorem unrecognized_fields_are_ignored (P : Platform) (w : World)
  (topic1 topic2 : string) (payload1 payload2 : Payload)
  (props1 props2 : list (string * json)) :
  JSON_parse P (trim P (raw_of P payload1)) = inr (JObj props1) ->
  JSON_parse P (trim P (raw_of P payload2)) = inr (JObj props2) ->
  (forall k, In k recognized_keys ->
             own_property props1 k = own_property props2 k) ->
  fields P (JObj props1) = fields P (JObj props2) /\
  accel (deliver P w (Message topic1 payload1))
  = accel (deliver P w (Message topic2 payload2)) /\
  gyro (deliver P w (Message topic1 payload1))
  = gyro (deliver P w (Message topic2 payload2)).
Proof.
  intros Hparse1 Hparse2 Hagree.
  assert (Hfields : fields P (JObj props1) = fields P (JObj props2)).
  { rewrite !fields_unfold.
    rewrite (field_expr_agree P props1 props2 "ax" "ax_mg"),
      (field_expr_agree P props1 props2 "ay" "ay_mg"),
      (field_expr_agree P props1 props2 "az" "az_mg"),
      (field_expr_agree P props1 props2 "gx" "gx_cds"),
      (field_expr_agree P props1 props2 "gy" "gy_cds"),
      (field_expr_agree P props1 props2 "gz" "gz_cds");
      try reflexivity; apply Hagree; cbn [recognized_keys In]; tauto. }
  split; [exact Hfields|].
  unfold deliver, dispatch.
  destruct (fields P (JObj props2)) as [e|f] eqn:Hf2.
  - rewrite (on_message_throws P topic1 payload1 w _ e Hparse1 Hfields),
      (on_message_throws P topic2 payload2 w _ e Hparse2 Hf2).
    split; reflexivity.
  - rewrite (on_message_returns P topic1 payload1 w _ f Hparse1 Hfields),
      (on_message_returns P topic2 payload2 w _ f Hparse2 Hf2).
    split; reflexivity.
Qed.

Lemma unrecognized_fields_are_ignored_witness :
  let props1 := [("unit", JStr "g"); ("ax", JNum 1)] in
  let props2 := [("ax", JNum 1)] in
  JSON_parse engine (trim engine (raw_of engine payload_extra_field))
  = inr (JObj props1) /\
  JSON_parse engine (trim engine (raw_of engine payload_accel))
  = inr (JObj props2) /\
  (forall k, In k recognized_keys ->
             own_property props1 k = own_property props2 k) /\
  accel (deliver engine mount (Message "jaeoh/imu" payload_extra_field))
  = accel (deliver engine mount (Message "jaeoh/imu" payload_accel)).
Proof.
  intros props1 props2.
  assert (Hagree : forall k, In k recognized_keys ->
                             own_property props1 k = own_property props2 k).
  { intros k Hin. cbn [recognized_keys In] in Hin.
    repeat (destruct Hin as [<-|Hin]; [reflexivity|]). contradiction. }
  split; [reflexivity|]. split; [reflexivity|]. split; [exact Hagree|].
  apply (unrecognized_fields_are_ignored engine mount "jaeoh/imu" "jaeoh/imu"
           payload_extra_field payload_accel props1 props2 eq_refl eq_refl
           Hagree).
Defined.

Lemma field_expr_numeric (P : Platform) props k kraw scale :
  numeric_field props k -> numeric_field props kraw ->
  exists out,
    field_expr P (JObj props) k kraw scale = inr out /\ number_or_null out.
Proof.
  unfold numeric_field, number_or_null. intros Hk Hraw.
  rewrite field_expr_object.
  destruct Hk as [->|[->|[n ->]]]; cbn [loose_eq_null].
  3: { eexists. split; [reflexivity|]. right. now exists n. }
  all: destruct Hraw as [->|[->|[n ->]]]; cbn [loose_eq_null];
    try (eexists; split; [reflexivity|]; now left).
  all: eexists; split; [reflexivity|]; right; eauto.
Qed.

(** X12: a message object whose recognized fields are each absent, [null]
    or a number always decodes, and each decoded field is a number or
    [null]: numeric messages never throw and never put anything but
    numbers and gaps into a sample. *)
Theorem numeric_messages_decode_to_numbers (P : Platform)
  (props : list (string * json)) :
  (forall k, In k recognized_keys -> numeric_field props k) ->
  exists f,
    fields P (JObj props) = inr f /\
    number_or_null (ax f) /\ number_or_null (ay f) /\ number_or_null (az f) /\
    number_or_null (gx f) /\ number_or_null (gy f) /\ number_or_null (gz f).
Proof.
  intros Hnum.
  assert (Hfield : forall k kraw scale,
            In k recognized_keys -> In kraw recognized_keys ->
            exists out, field_expr P (JObj props) k kraw scale = inr out /\
                        number_or_null out).
  { intros k kraw scale Hk Hraw. apply field_expr_numeric; now apply Hnum. }
  destruct (Hfield "ax" "ax_mg" 1000%float) as (vax & Hax & Nax);
    [cbn; tauto..|].
  destruct (Hfield "ay" "ay_mg" 1000%float) as (vay & Hay & Nay);
    [cbn; tauto..|].
  destruct (Hfield "az" "az_mg" 1000%float) as (vaz & Haz & Naz);
    [cbn; tauto..|].
  destruct (Hfield "gx" "gx_cds" 100%float) as (vgx & Hgx & Ngx);
    [cbn; tauto..|].
  destruct (Hfield "gy" "gy_cds" 100%float) as (vgy & Hgy & Ngy);
    [cbn; tauto..|].
  destruct (Hfield "gz" "gz_cds" 100%float) as (vgz & Hgz & Ngz);
    [cbn; tauto..|].
  eexists. split; [apply fields_intro; eassumption|].
  cbn [ax ay az gx gy gz]. tauto.
Qed.

Lemma numeric_messages_decode_to_numbers_witness :
  (forall k, In k recognized_keys -> numeric_field props_raw k) /\
  exists f, fields engine (JObj props_raw) = inr f /\ number_or_null (ax f).
Proof.
  assert (Hnum : forall k, In k recognized_keys -> numeric_field props_raw k).
  { intros k Hin. cbn [recognized_keys In] in Hin. unfold numeric_field.
    repeat (destruct Hin as [<-|Hin];
            [first [left; reflexivity
                   | right; right; eexists; reflexivity]|]).
    contradiction. }
  split; [exact Hnum|].
  destruct (numeric_messages_decode_to_numbers engine props_raw Hnum)
    as (f & Hf & Hax & _).
  now exists f.
Defined.

(** ** The badge and the cleanup *)

(** X13: every status has an entry in the colour table, so the fallback
    colour is never needed; connected is the only status shown in green,
    error the only one in red, reconnecting the only one in amber. *)
Theorem color_of_status (s : ConnectionStatus) :
  table_lookup color_table (status_name s) = Some (color s) /\
  (color s = "#16a34a" <-> s = connected) /\
  (color s = "#dc2626" <-> s = error) /\
  (color s = "#d97706" <-> s = reconnecting).
Proof.
  destruct s; (split; [reflexivity|]);
    repeat split; intros H; try reflexivity; discriminate.
Qed.

(** X14: the cleanup never throws, whatever [client.end] does: it returns
    in the world that [client.end] left, with its exception swallowed. *)
Theorem cleanup_never_throws (client_end : bool -> M unit) (w : World) :
  fst (cleanup client_end w) = inr tt /\
  snd (cleanup client_end w) = snd (client_end true w).
Proof.
  unfold cleanup, try_catch.
  destruct (client_end true w) as [[e|[]] w']; split; reflexivity.
Qed.
